(** * fix_frame_data.py: the FrameData migration script

    A shallow embedding of [src/fix_frame_data.py] and the properties of
    its specification.  The script is written to walk a source tree and,
    for every file whose name ends in [.rs], to apply eight
    regular-expression substitutions in order and write the file back when
    its text changed.

    Python text is a sequence of Unicode code points; it is modelled as a
    list of code points.  The part of [re] the script uses (literal
    characters, escaped punctuation, the class [\s] and the greedy star)
    is embedded with its backtracking matcher and [re.sub]'s left-to-right
    scan.  Files live in a finite map from names to file records, with a
    second map for the paths that denote a file kept under another name
    (symbolic and hard links), and the effects (reads, writes, printed
    lines, exceptions) are threaded through a small state-and-exception
    monad.

    Line 25 of the file reads [if new_content \!= content:].  The backslash
    makes the file a syntax error, so Python runs none of its statements.
    Both programs are embedded: [script] is the file as written, which
    raises [SyntaxError] and leaves everything as it is, and [main] is what
    the statements of the file do with that line read as [!=].  The
    substitutions of lines 9 to 23 are the same in both. *)

From Stdlib Require Import String Ascii.
From stdpp Require Import gmap list.
From Stdlib Require Import Lia.

Set Warnings "-register-all".

Local Open Scope N_scope.
Local Open Scope list_scope.

(** ** Text *)

(** A Python [str]: a sequence of code points. *)
Definition str := list N.

(** A literal of the source, as code points. *)
Definition txt (s : string) : str := map N_of_ascii (list_ascii_of_string s).

(** ** The fragment of [re] used by the script *)

Module Re.

(** [\s] on a [str] pattern: the characters for which [str.isspace] holds
    (CPython's [Py_UNICODE_ISSPACE]). *)
Definition is_space (c : N) : bool :=
  ((9 <=? c) && (c <=? 13)) || ((28 <=? c) && (c <=? 32))
  || (c =? 133) || (c =? 160) || (c =? 5760)
  || ((8192 <=? c) && (c <=? 8202))
  || (c =? 8232) || (c =? 8233) || (c =? 8239) || (c =? 8287) || (c =? 12288).

(** Single-character matchers: a literal character and the class [\s]. *)
Inductive atom :=
| Chr (c : N)
| Space.

(** A pattern is a sequence of atoms, each taken once or under a greedy [*]. *)
Inductive item :=
| One (a : atom)
| Star (a : atom).

Definition regex := list item.

Definition atom_match (a : atom) (c : N) : bool :=
  match a with
  | Chr d => c =? d
  | Space => is_space c
  end.

(** *** Compiling a pattern string *)

(** Characters with a special meaning in a pattern; outside an escape only
    [*] is supported, as a postfix operator. *)
Definition is_special (c : N) : bool :=
  bool_decide (c ∈ txt ".^$*+?{}[]|()\").

(** An escape: [\s] is the whitespace class, an escaped ASCII punctuation
    character is that character; other escapes are not supported. *)
Definition escape (e : N) : option atom :=
  if e =? 115 then Some Space
  else if (e <? 128) && negb (((48 <=? e) && (e <=? 57)) || ((65 <=? e) && (e <=? 90))
                              || ((97 <=? e) && (e <=? 122)) || (e =? 95))
       then Some (Chr e)
       else None.

Definition push (pend : option atom) (r : option regex) : option regex :=
  match pend with
  | Some a => cons (One a) <$> r
  | None => r
  end.

(** [pend] is the atom just read, which a following [*] would repeat. *)
Fixpoint parse (s : str) (pend : option atom) : option regex :=
  match s with
  | [] => push pend (Some [])
  | c :: s' =>
      if c =? 42 then
        match pend with
        | Some a => cons (Star a) <$> parse s' None
        | None => None
        end
      else if c =? 92 then
        match s' with
        | e :: s'' =>
            match escape e with
            | Some a => push pend (parse s'' (Some a))
            | None => None
            end
        | [] => None
        end
      else if is_special c then None
      else push pend (parse s' (Some (Chr c)))
  end.

(** [re.compile], [None] standing for a pattern outside the fragment. *)
Definition compile (pattern : str) : option regex := parse pattern None.

(** *** Matching *)

(** The greedy star: take one more character when the atom allows it and the
    rest then matches, otherwise go on with the continuation [k].  [adv] says
    that the match as a whole must still consume a character. *)
Fixpoint star (a : atom) (k : bool → str → option nat) (adv : bool) (s : str)
  : option nat :=
  match s with
  | c :: s' =>
      if atom_match a c then
        match star a k false s' with
        | Some n => Some (S n)
        | None => k adv s
        end
      else k adv s
  | [] => k adv s
  end.

(** [match_at r adv s]: the length of the match of [r] at the start of [s]
    that the backtracking matcher finds first, if there is one.  With
    [adv = true] an empty match is refused. *)
Fixpoint match_at (r : regex) : bool → str → option nat :=
  match r with
  | [] => fun adv _ => if adv then None else Some 0%nat
  | One a :: r' => fun _ s =>
      match s with
      | c :: s' => if atom_match a c then S <$> match_at r' false s' else None
      | [] => None
      end
  | Star a :: r' => star a (match_at r')
  end.

(** *** Substitution *)

(** [re.sub]'s scan with a replacement that has no escapes.  [skip] counts
    the characters of the current match still to be passed over.  After an
    empty match the next match at the same position must consume a
    character; after a match that consumed characters an empty match is
    allowed again. *)
Fixpoint sub_from (r : regex) (repl : str) (skip : nat) (s : str) : str :=
  match s with
  | [] =>
      match skip, match_at r false [] with
      | O, Some _ => repl
      | _, _ => []
      end
  | c :: s' =>
      match skip with
      | S k => sub_from r repl k s'
      | O =>
          match match_at r false s with
          | Some (S m) => repl ++ sub_from r repl m s'
          | Some O =>
              repl ++ match match_at r true s with
                      | Some (S m) => repl ++ sub_from r repl m s'
                      | _ => c :: sub_from r repl 0 s'
                      end
          | None => c :: sub_from r repl 0 s'
          end
      end
  end.

Definition gsub (r : regex) (repl : str) (s : str) : str := sub_from r repl 0 s.

(** A replacement template is taken literally when it has no backslash. *)
Definition template (repl : str) : option str :=
  if bool_decide (92 ∈ repl) then None else Some repl.

(** [re.sub(pattern, repl, string)]; [None] when the pattern or the
    replacement lies outside the modelled fragment. *)
Definition sub (pattern repl string : str) : option str :=
  r ← compile pattern; t ← template repl; Some (gsub r t string).

End Re.

(** ** The script *)

(** The pattern list of [fix_frame_data_in_file], as written. *)
Definition patterns : list (str * str) :=
  [ (txt "video_data:", txt "render_data:");
    (txt "tally_data:\s*None,", txt "");
    (txt "scene3d_data:\s*None,", txt "");
    (txt "spatial_audio_data:\s*None,", txt "");
    (txt "transform_data:\s*None,", txt "control_data: None,");
    (txt "Some\(frame\)", txt "Some(RenderData::Raster2D(frame))");
    (txt "Some\(video_frame\)", txt "Some(RenderData::Raster2D(video_frame))");
    (txt "Some\(frame_data\)", txt "Some(RenderData::Raster2D(frame_data))") ].

(** The loop [for pattern, replacement in patterns: new_content = re.sub(...)]. *)
Fixpoint apply_patterns (ps : list (str * str)) (new_content : str) : option str :=
  match ps with
  | [] => Some new_content
  | (pattern, replacement) :: ps' =>
      match Re.sub pattern replacement new_content with
      | Some new_content' => apply_patterns ps' new_content'
      | None => None
      end
  end.

(** *** Files, console and exceptions *)

Inductive exn :=
| FileNotFoundError
| PermissionError
| UnicodeDecodeError
| ReError
| UnicodeEncodeError
| BrokenPipeError
| SyntaxError.

Inductive result (A : Type) :=
| Ok (a : A)
| Raise (e : exn).
Arguments Ok {A} a.
Arguments Raise {A} e.

(** A file: its text as a read in text mode returns it ([None] when its
    bytes do not decode), whether it can be opened for reading and for
    writing, and a counter that every write advances (its modification
    state). *)
Record file := File {
  text : option str;
  may_read : bool;
  may_write : bool;
  mtime : nat }.

(** The world the script acts on.  [files] holds every file once, under one
    of its names.  [links] gives, for every other path that denotes a file
    (a symbolic link, which [open] follows, or a further hard link), the
    name under which that file is kept.  [stdout] holds the lines printed,
    and [stdout_error] tells which exception, if any, writing a given line
    to the standard output raises after the lines printed so far (a path
    that cannot be encoded, a pipe that is or gets closed). *)
Record world := World {
  links : gmap (list N) (list N);
  files : gmap (list N) file;
  stdout : list str;
  stdout_error : list str → str → option exn }.

(** The name of the file that [path] denotes. *)
Definition resolve (w : world) (path : str) : str := default path (links w !! path).

(** Computations that read and change the world and may raise. *)
Definition M (A : Type) : Type := world → result A * world.

Definition ret {A} (a : A) : M A := fun w => (Ok a, w).
Definition raise {A} (e : exn) : M A := fun w => (Raise e, w).
Definition bind {A B} (m : M A) (k : A → M B) : M B := fun w =>
  match m w with
  | (Ok a, w') => k a w'
  | (Raise e, w') => (Raise e, w')
  end.

Notation "'let*' x := m 'in' k" := (bind m (fun x => k))
  (at level 10, x name, m at level 100, k at level 200).
Notation "m ;; k" := (bind m (fun _ => k))
  (at level 100, k at level 200, right associativity).

(** A [for] loop: an exception in the body leaves the loop. *)
Fixpoint for_each {A} (l : list A) (body : A → M unit) : M unit :=
  match l with
  | [] => ret tt
  | x :: l' => body x ;; for_each l' body
  end.

(** [with open(path, 'r') as f: f.read()], on the file [path] denotes. *)
Definition read_text (path : str) : M str := fun w =>
  match files w !! resolve w path with
  | None => (Raise FileNotFoundError, w)
  | Some f =>
      if may_read f then
        match text f with
        | Some content => (Ok content, w)
        | None => (Raise UnicodeDecodeError, w)
        end
      else (Raise PermissionError, w)
  end.

(** The file a successful [open(path, 'w')] and [write] leave behind. *)
Definition written (old : option file) (content : str) : file :=
  match old with
  | Some f => File (Some content) (may_read f) (may_write f) (S (mtime f))
  | None => File (Some content) true true 0
  end.

(** The world with [f] as the file named [name]. *)
Definition with_file (name : str) (f : file) (w : world) : world :=
  World (links w) (<[name := f]> (files w)) (stdout w) (stdout_error w).

(** [with open(path, 'w') as f: f.write(content)]: the file [path] denotes
    is truncated and holds exactly [content] afterwards, whatever other
    paths denote it too; a missing file is created. *)
Definition write_text (path : str) (content : str) : M unit := fun w =>
  match files w !! resolve w path with
  | Some f =>
      if may_write f
      then (Ok tt, with_file (resolve w path) (written (Some f) content) w)
      else (Raise PermissionError, w)
  | None => (Ok tt, with_file (resolve w path) (written None content) w)
  end.

(** [print(line)]: the line is added to the standard output, unless writing
    it there raises. *)
Definition print (line : str) : M unit := fun w =>
  match stdout_error w (stdout w) line with
  | Some e => (Raise e, w)
  | None => (Ok tt, World (links w) (files w) (stdout w ++ [line]) (stdout_error w))
  end.

Definition fixed_line (filepath : str) : str := txt "Fixed patterns in " ++ filepath.

(** The function of lines 4 to 28, with the comparison of line 25 read as
    [!=].  The line as written, [if new_content \!= content:], is not
    Python (see [source] and [script] below), so this is the function of
    the file with that one backslash removed, not something the file as
    written runs. *)
Definition fix_frame_data_in_file (filepath : str) : M unit :=
  let* content := read_text filepath in
  match apply_patterns patterns content with
  | None => raise ReError
  | Some new_content =>
      if bool_decide (new_content ≠ content) then
        write_text filepath new_content ;;
        print (fixed_line filepath)
      else ret tt
  end.

(** *** The walk *)

(** [str.endswith]. *)
Definition endswith (s suffix : str) : bool := bool_decide (suffix `suffix_of` s).

(** [str.startswith]. *)
Definition startswith (s prefix : str) : bool := bool_decide (prefix `prefix_of` s).

(** [os.path.join] of two components (posixpath). *)
Definition path_join (a b : str) : str :=
  if startswith b (txt "/") then b
  else if bool_decide (a = []) || endswith a (txt "/") then a ++ b
  else a ++ txt "/" ++ b.

(** A directory entry as [os.scandir] reports it: something that is not a
    directory, or a directory (possibly through a symbolic link) with the
    entries a later [scandir] of it gives, [None] when that raises
    [OSError]. *)
Inductive dirent :=
| EFile (name : str)
| EDir (name : str) (islink : bool) (listing : option (list dirent)).

Definition entry_name (e : dirent) : str :=
  match e with
  | EFile name => name
  | EDir name _ _ => name
  end.

Definition is_dir (e : dirent) : bool :=
  match e with
  | EFile _ => false
  | EDir _ _ _ => true
  end.

Definition dirs_of (es : list dirent) : list str := entry_name <$> filter is_dir es.
Definition nondirs_of (es : list dirent) : list str :=
  entry_name <$> filter (fun e => negb (is_dir e)) es.

(** What [os.walk] yields below one entry of [top]: nothing for a file or a
    symbolic link, nothing for a directory that cannot be listed (with no
    [onerror] the error is dropped), otherwise the directory and then its
    sub-directories in order. *)
Fixpoint walk_entry (top : str) (e : dirent) : list (str * list str * list str) :=
  match e with
  | EFile _ => []
  | EDir name islink listing =>
      if islink then []
      else
        match listing with
        | None => []
        | Some es =>
            (path_join top name, dirs_of es, nondirs_of es)
              :: flat_map (walk_entry (path_join top name)) es
        end
  end.

(** [os.walk(top)], top-down. *)
Definition os_walk (top : str) (listing : option (list dirent))
  : list (str * list str * list str) :=
  match listing with
  | None => []
  | Some es => (top, dirs_of es, nondirs_of es) :: flat_map (walk_entry top) es
  end.

Definition ROOT : str :=
  txt "/Users/mirabilis/dev/ConstellationStudio/crates/constellation-nodes/src".

(** The body of the inner loop. *)
Definition visit (root file : str) : M unit :=
  if endswith file (txt ".rs")
  then fix_frame_data_in_file (path_join root file)
  else ret tt.

(** The loop over what the walk yields. *)
Definition walk_loop (yielded : list (str * list str * list str)) : M unit :=
  for_each yielded (fun '(root, dirs, files) => for_each files (visit root)).

(** The statements of lines 31 to 35, on the tree found under [ROOT]: what
    a run does once the file is accepted, that is with line 25 read as
    [!=]. *)
Definition main (tree : option (list dirent)) : M unit :=
  walk_loop (os_walk ROOT tree).

(** *** The file as written *)

(** The text of [src/fix_frame_data.py], line by line.  Code point 34 is
    the double quote. *)
Definition source : list str :=
  [ txt "import os";
    txt "import re";
    txt "";
    txt "def fix_frame_data_in_file(filepath):";
    txt "    with open(filepath, 'r') as f:";
    txt "        content = f.read()";
    txt "    ";
    txt "    # Simple replacement patterns";
    txt "    patterns = [";
    txt "        # Replace old FrameData pattern with basic replacements";
    txt "        (r'video_data:', 'render_data:'),";
    txt "        (r'tally_data:\s*None,', ''),";
    txt "        (r'scene3d_data:\s*None,', ''),";
    txt "        (r'spatial_audio_data:\s*None,', ''),";
    txt "        (r'transform_data:\s*None,', 'control_data: None,'),";
    txt "        (r'Some\(frame\)', 'Some(RenderData::Raster2D(frame))'),";
    txt "        (r'Some\(video_frame\)', 'Some(RenderData::Raster2D(video_frame))'),";
    txt "        (r'Some\(frame_data\)', 'Some(RenderData::Raster2D(frame_data))'),";
    txt "    ]";
    txt "    ";
    txt "    new_content = content";
    txt "    for pattern, replacement in patterns:";
    txt "        new_content = re.sub(pattern, replacement, new_content)";
    txt "    ";
    txt "    if new_content \!= content:";
    txt "        with open(filepath, 'w') as f:";
    txt "            f.write(new_content)";
    txt "        print(f" ++ [34] ++ txt "Fixed patterns in {filepath}" ++ [34] ++ txt ")";
    txt "";
    txt "# Find and fix all .rs files";
    txt "for root, dirs, files in os.walk('/Users/mirabilis/dev/ConstellationStudio/crates/constellation-nodes/src'):";
    txt "    for file in files:";
    txt "        if file.endswith('.rs'):";
    txt "            filepath = os.path.join(root, file)";
    txt "            fix_frame_data_in_file(filepath)" ].

(** Where the tokenizer stands within a line: in code, or inside a string
    literal opened by the given quote character. *)
Inductive lexing :=
| InCode
| InString (quote : N).

(** Python's tokenizer on one line, as far as quotes, comments and the
    backslash go.  In code, [#] starts a comment that runs to the end of
    the line, a quote opens a string literal, and a backslash is accepted
    only as the last character of the line, where it joins the next line;
    anywhere else it is the error [unexpected character after line
    continuation character].  Inside a literal a backslash and the
    character after it belong to the literal, raw or not, and the literal
    must be closed on its line (the file has no triple-quoted text). *)
Fixpoint lex_line (st : lexing) (line : str) : bool :=
  match line with
  | [] =>
      match st with
      | InCode => true
      | InString _ => false
      end
  | c :: rest =>
      match st with
      | InCode =>
          if c =? 35 then true
          else if c =? 92 then
            match rest with
            | [] => true
            | _ :: _ => false
            end
          else if (c =? 39) || (c =? 34) then lex_line (InString c) rest
          else lex_line InCode rest
      | InString quote =>
          if c =? 92 then
            match rest with
            | [] => false
            | _ :: rest' => lex_line (InString quote) rest'
            end
          else if c =? quote then lex_line InCode rest
          else lex_line (InString quote) rest
      end
  end.

(** The tokenizer accepts every line of the text. *)
Definition accepted (text : list str) : bool := forallb (lex_line InCode) text.

(** Running a file: Python compiles the whole text first, and a text the
    tokenizer refuses raises [SyntaxError] before any statement runs. *)
Definition run_module (text : list str) (statements : M unit) : M unit :=
  if accepted text then statements else raise SyntaxError.

(** The script as written, on the tree found under [ROOT]. *)
Definition script (tree : option (list dirent)) : M unit :=
  run_module source (main tree).

(** The text with the backslash of line 25 removed. *)
Definition repaired : list str :=
  <[24%nat := txt "    if new_content != content:"]> source.

(** ** Vocabulary of the specification *)

Import Re.

(** The pattern that matches exactly the characters of [s]. *)
Definition lit (s : str) : regex := (fun c => One (Chr c)) <$> s.

(** The eight patterns compiled, with their replacement texts. *)
Definition rules : list (regex * str) :=
  [ (lit (txt "video_data:"), txt "render_data:");
    (lit (txt "tally_data:") ++ Star Space :: lit (txt "None,"), txt "");
    (lit (txt "scene3d_data:") ++ Star Space :: lit (txt "None,"), txt "");
    (lit (txt "spatial_audio_data:") ++ Star Space :: lit (txt "None,"), txt "");
    (lit (txt "transform_data:") ++ Star Space :: lit (txt "None,"),
     txt "control_data: None,");
    (lit (txt "Some(frame)"), txt "Some(RenderData::Raster2D(frame))");
    (lit (txt "Some(video_frame)"), txt "Some(RenderData::Raster2D(video_frame))");
    (lit (txt "Some(frame_data)"), txt "Some(RenderData::Raster2D(frame_data))") ].

(** One global substitution after the other, in list order. *)
Definition fold_rules (rs : list (regex * str)) (s : str) : str :=
  fold_left (fun acc rule => gsub rule.1 rule.2 acc) rs s.

(** The migration pass on a text. *)
Definition transform (s : str) : str := fold_rules rules s.

(** The language of a pattern: the texts it matches as a whole. *)
Inductive matches : regex → str → Prop :=
| matches_nil : matches [] []
| matches_one a r c s :
    atom_match a c = true → matches r s → matches (One a :: r) (c :: s)
| matches_stop a r s :
    matches r s → matches (Star a :: r) s
| matches_more a r c s :
    atom_match a c = true → matches (Star a :: r) s → matches (Star a :: r) (c :: s).

(** [scan r repl s out]: [out] is [s] read from left to right, where at each
    position either an occurrence of [r] starts there and is replaced by
    [repl], the reading going on after it, or no occurrence starts there
    and the character is kept. *)
Inductive scan (r : regex) (repl : str) : str → str → Prop :=
| scan_end : scan r repl [] []
| scan_hit m rest out :
    m ≠ [] → matches r m → scan r repl rest out →
    scan r repl (m ++ rest) (repl ++ out)
| scan_miss c s out :
    (∀ m, m `prefix_of` (c :: s) → ¬ matches r m) → scan r repl s out →
    scan r repl (c :: s) (c :: out).

(** Some part of [s] is in the language of [r]. *)
Definition occurs_in (r : regex) (s : str) : Prop :=
  ∃ pre m post, s = pre ++ m ++ post ∧ matches r m.

(** The matcher finds an occurrence of [r] at some position of [s]. *)
Fixpoint occurs (r : regex) (s : str) : bool :=
  match s with
  | [] => bool_decide (is_Some (match_at r false []))
  | _ :: s' => bool_decide (is_Some (match_at r false s)) || occurs r s'
  end.

(** The pattern starts with a character it must consume. *)
Definition head_one (r : regex) : bool :=
  match r with
  | One _ :: _ => true
  | _ => false
  end.

(** The non-empty suffixes of a list. *)
Fixpoint tails1 {A} (l : list A) : list (list A) :=
  match l with
  | [] => []
  | _ :: l' => l :: tails1 l'
  end.

(** No text starting with [c] has a prefix matched by [r], as seen from the
    first item of [r] that must consume a character. *)
Fixpoint cannot_start (r : regex) (c : N) : bool :=
  match r with
  | [] => false
  | One a :: _ => negb (atom_match a c)
  | Star a :: r' => negb (atom_match a c) && cannot_start r' c
  end.

(** A match that has started cannot go on into a text that starts with [c]. *)
Definition sep_left (r : regex) (c : N) : bool :=
  forallb (fun r2 => cannot_start r2 c) (tails1 (tail r)).

(** The matcher, started on [s], would ask for a character after the end
    of [s] on some path. *)
Fixpoint runs_star (a : atom) (ro : str → bool) (s : str) : bool :=
  match s with
  | [] => true
  | c :: s' => (atom_match a c && runs_star a ro s') || ro s
  end.

Fixpoint runs_out (r : regex) : str → bool :=
  match r with
  | [] => fun _ => false
  | One a :: r' => fun s =>
      match s with
      | [] => true
      | c :: s' => atom_match a c && runs_out r' s'
      end
  | Star a :: r' => runs_star a (runs_out r')
  end.

(** No match attempt inside [s] depends on what follows [s]. *)
Definition sep_right (r : regex) (s : str) : bool :=
  forallb (fun s2 => negb (runs_out r s2)) (tails1 s).

(** [piece] stays a unit of its own through the substitutions [rs]: no
    occurrence can reach into it from the left or out of it to the right. *)
Fixpoint isolated (rs : list (regex * str)) (piece : str) : bool :=
  match rs with
  | [] => true
  | (r, repl) :: rs' =>
      head_one r
      && match piece with c :: _ => sep_left r c | [] => false end
      && sep_right r piece
      && isolated rs' (gsub r repl piece)
  end.

(** A weight on characters that every substitution of the script lowers. *)
Definition weight (c : N) : Z :=
  if bool_decide (c ∈ txt "vy3pf") then 1%Z
  else if bool_decide (c = 50) then (-1)%Z
  else 0%Z.

Definition wt (s : str) : Z := foldr (fun c z => (weight c + z)%Z) 0%Z s.

(** The weight of any text matched by [r], when [light r] holds. *)
Fixpoint rw (r : regex) : Z :=
  match r with
  | [] => 0%Z
  | One (Chr c) :: r' => (weight c + rw r')%Z
  | _ :: r' => rw r'
  end.

Definition light_item (i : item) : bool :=
  match i with
  | Star (Chr c) => bool_decide (weight c = 0%Z)
  | _ => true
  end.

Definition light (r : regex) : bool := forallb light_item r.

(** The three optional forms the last three patterns wrap. *)
Definition some_of (inner : str) : str := txt "Some(" ++ inner ++ txt ")".
Definition wrapped (inner : str) : str :=
  txt "Some(RenderData::Raster2D(" ++ inner ++ txt "))".

(** A rule whose every replacement lowers the weight of the text. *)
Definition lowering (rule : regex * str) : bool :=
  head_one rule.1 && light rule.1 && bool_decide (wt rule.2 < rw rule.1)%Z.

(** A star is followed by a character to consume that it cannot take
    itself, so that a match at a position has one possible length. *)
Definition disjoint_atoms (a b : atom) : bool :=
  match a, b with
  | Chr c, Chr d => negb (c =? d)
  | Space, Chr d => negb (is_space d)
  | Chr c, Space => negb (is_space c)
  | Space, Space => false
  end.

Fixpoint unambiguous (r : regex) : bool :=
  match r with
  | [] => true
  | One _ :: r' => unambiguous r'
  | Star a :: r' =>
      match r' with
      | One b :: _ => disjoint_atoms a b && unambiguous r'
      | _ => false
      end
  end.

(** The world after the file [f] that [path] denotes was overwritten with
    [new_content]: one write more on that file, nothing else changed. *)
Definition overwritten (path : str) (f : file) (new_content : str) (w : world) : world :=
  with_file (resolve w path)
            (File (Some new_content) (may_read f) (may_write f) (S (mtime f))) w.

(** The same, with the line naming [path] printed. *)
Definition rewritten (path : str) (f : file) (new_content : str) (w : world) : world :=
  World (links w)
        (files (overwritten path f new_content w))
        (stdout w ++ [txt "Fixed patterns in " ++ path])
        (stdout_error w).

(** The pattern [name\s*None,]. *)
Definition field_regex (name : str) : regex :=
  lit name ++ Star Space :: lit (txt "None,").

(** A small world for examples: one readable and writable file [lib.rs]
    directly under [ROOT]. *)
Definition sample_path : str := path_join ROOT (txt "lib.rs").

Definition sample_file (content : str) : file := File (Some content) true true 0.

Definition sample_tree : option (list dirent) := Some [EFile (txt "lib.rs")].

Definition sample_world (content : str) : world :=
  World ∅ {[ sample_path := sample_file content ]} [] (fun _ _ => None).

(** An input on which a removal brings the two halves of [video_data:]
    together. *)
Definition joined_by_removal : str := txt "video_tally_data:None,data:".

(** A tree under [ROOT] with a directory that cannot be listed, followed
    by a directory with one source file. *)
Definition locked_tree : option (list dirent) :=
  Some [ EDir (txt "locked") false None;
         EDir (txt "later") false (Some [EFile (txt "b.rs")]) ].

Definition later_path : str := path_join (path_join ROOT (txt "later")) (txt "b.rs").

Definition locked_world : world :=
  World ∅ {[ later_path := sample_file (txt "video_data:") ]} [] (fun _ _ => None).

(** A world in which [lib.rs] cannot be opened for reading. *)
Definition unreadable_world : world :=
  World ∅ {[ sample_path := File (Some (txt "video_data:")) false true 0 ]} []
        (fun _ _ => None).

(** A world in which [lib.rs] under [ROOT] is a link to a file of notes kept
    elsewhere. *)
Definition notes_path : str := txt "/home/notes.txt".

Definition linked_world : world :=
  World {[ sample_path := notes_path ]}
        {[ notes_path := sample_file (txt "video_data:") ]} [] (fun _ _ => None).

(** A world whose standard output is a closed pipe. *)
Definition closed_pipe_world : world :=
  World ∅ {[ sample_path := sample_file (txt "video_data:") ]} []
        (fun _ _ => Some BrokenPipeError).

(** ** Vocabulary for the further properties *)

(** Some search expression of the pattern list occurs in the text. *)
Definition pattern_occurs (s : str) : Prop :=
  Exists (fun p : str * str => ∃ r, compile p.1 = Some r ∧ occurs_in r s) patterns.

(** The matcher, started on a text that begins with [u], fails before
    the end of [u]. *)
Definition stops (q : regex) (u : str) : bool :=
  negb (runs_out q u) && bool_decide (match_at q false u = None).

(** As [isolated], looking at the whole piece to see that no occurrence
    reaches into it from the left. *)
Fixpoint isolated_wide (rs : list (regex * str)) (piece : str) : bool :=
  match rs with
  | [] => true
  | (r, repl) :: rs' =>
      head_one r
      && forallb (fun r2 => stops r2 piece) (tails1 (tail r))
      && sep_right r piece
      && isolated_wide rs' (gsub r repl piece)
  end.

(** The pattern starts with a literal character that is not whitespace. *)
Definition head_lit (r : regex) : bool :=
  match r with
  | One (Chr x) :: _ => negb (is_space x)
  | _ => false
  end.

(** The rule leaves a field [name], whitespace, [None,] as it is and no
    occurrence reaches into it or out of it. *)
Definition passes_field (rule : regex * str) (name : str) : bool :=
  head_one rule.1 && head_lit rule.1
  && forallb (fun r2 => stops r2 name) (tails1 (tail rule.1))
  && sep_right rule.1 name && bool_decide (gsub rule.1 rule.2 name = name)
  && sep_right rule.1 (txt "None,")
  && bool_decide (gsub rule.1 rule.2 (txt "None,") = txt "None,").

(** A replacement by [rule] cannot produce an occurrence of [q]: no
    occurrence can run from kept text into the replacement text, and none
    can start inside it. *)
Definition no_new (q : regex) (rule : regex * str) : bool :=
  head_one q
  && forallb (fun q2 => stops q2 rule.2) (tails1 (tail q))
  && forallb (fun u => stops q u) (tails1 rule.2).

(** How a run may change one file: the permissions stay, and either the
    file is as it was or it was written at least once and its text has a
    lower weight. *)
Definition file_step (f f' : file) : Prop :=
  may_read f' = may_read f ∧ may_write f' = may_write f ∧
  (f' = f ∨
   ((mtime f < mtime f')%nat ∧
    ∃ c c', text f = Some c ∧ text f' = Some c' ∧ (wt c' < wt c)%Z)).

(** A printed line that names a path whose file was written in between. *)
Definition names_written (w w' : world) (line : str) : Prop :=
  ∃ (p : str) f f',
    line = fixed_line p ∧
    files w !! resolve w p = Some f ∧ files w' !! resolve w p = Some f' ∧
    (mtime f < mtime f')%nat.

(** How a run may change the world: the links and the standard output's
    behaviour stay, no file appears or disappears, every file changes by
    [file_step], lines are only added to the console, and each names a
    path whose file was written. *)
Definition tracks (w w' : world) : Prop :=
  links w' = links w ∧ stdout_error w' = stdout_error w ∧
  (∀ p : str, option_Forall2 file_step (files w !! p) (files w' !! p)) ∧
  ∃ lines, stdout w' = stdout w ++ lines ∧ Forall (names_written w w') lines.

(** The paths the loop hands to [fix_frame_data_in_file], in order. *)
Definition rs_paths (yielded : list (str * list str * list str)) : list str :=
  flat_map (fun y : str * list str * list str =>
              path_join y.1.1 <$> filter (fun name => endswith name (txt ".rs") = true) y.2)
           yielded.

(** No entry of the tree has a name that starts with [/], as is the case
    for the names a directory listing gives. *)
Fixpoint dirent_wf (e : dirent) : bool :=
  match e with
  | EFile name => negb (startswith name (txt "/"))
  | EDir name _ listing =>
      negb (startswith name (txt "/"))
      && match listing with
         | None => true
         | Some es => forallb dirent_wf es
         end
  end.

Definition tree_wf (tree : option (list dirent)) : bool :=
  match tree with
  | None => true
  | Some es => forallb dirent_wf es
  end.

(** ** The matcher *)

Section Matcher.

Implicit Types (r : regex) (a : atom) (s m : str) (adv : bool) (n : nat).

Lemma star_is_Some a k adv s : is_Some (k adv s) → is_Some (star a k adv s).
Proof.
  intros Hk. destruct s as [|c s']; simpl; [done|].
  destruct (atom_match a c); [|done].
  destruct (star a k false s'); [eauto | done].
Qed.

Lemma star_None a k adv s : star a k adv s = None → k adv s = None.
Proof.
  intros H. destruct (k adv s) eqn:E; [|done].
  destruct (star_is_Some a k adv s) as [n' Hn]; [by rewrite E | congruence].
Qed.

(** What the matcher finds is in the language, lies inside the text, and is
    not empty when an advance was asked for. *)
Lemma match_at_sound r : ∀ adv s n,
  match_at r adv s = Some n →
  (n ≤ length s)%nat ∧ matches r (take n s) ∧ (adv = true → n ≠ 0%nat).
Proof.
  induction r as [|[a|a] r IH]; intros adv s n H.
  - simpl in H. destruct adv; [done|]. injection H as <-.
    split; [lia|]. split; [rewrite take_0; constructor | done].
  - simpl in H. destruct s as [|c s']; [done|].
    destruct (atom_match a c) eqn:Ha; [|done].
    destruct (match_at r false s') as [n'|] eqn:E; [|done].
    injection H as <-. destruct (IH _ _ _ E) as (Hl & Hm & _).
    split; [simpl; lia|]. split; [|done]. simpl. by constructor.
  - change (star a (match_at r) adv s = Some n) in H.
    revert adv n H. induction s as [|c s' IHs]; intros adv n H.
    + simpl in H. destruct (IH _ _ _ H) as (Hl & Hm & Hn).
      split; [done|]. split; [by constructor | done].
    + simpl in H. destruct (atom_match a c) eqn:Ha.
      * destruct (star a (match_at r) false s') as [n'|] eqn:E.
        -- injection H as <-. destruct (IHs _ _ E) as (Hl & Hm & _).
           split; [simpl; lia|]. split; [|done]. simpl. by apply matches_more.
        -- destruct (IH _ _ _ H) as (Hl & Hm & Hn).
           split; [done|]. split; [by constructor | done].
      * destruct (IH _ _ _ H) as (Hl & Hm & Hn).
        split; [done|]. split; [by constructor | done].
Qed.

(** Whenever some prefix of the text is in the language, the matcher finds
    a match. *)
Lemma match_at_complete r m :
  matches r m → ∀ adv s, m `prefix_of` s → (adv = true → m ≠ []) →
  is_Some (match_at r adv s).
Proof.
  induction 1 as [|a r c m Ha Hm IH|a r m Hm IH|a r c m Ha Hm IH];
    intros adv s Hp Hne.
  - destruct adv; [by exfalso; apply Hne | simpl; eauto].
  - destruct Hp as [t ->]. simpl. rewrite Ha.
    destruct (IH false (m ++ t)) as [n Hn]; [by eexists | done |].
    rewrite Hn. simpl. eauto.
  - apply star_is_Some. by apply IH.
  - destruct Hp as [t ->].
    change (is_Some (star a (match_at r) adv (c :: m ++ t))).
    simpl. rewrite Ha.
    destruct (IH false (m ++ t)) as [n Hn]; [by eexists | done |].
    change (star a (match_at r) false (m ++ t) = Some n) in Hn.
    rewrite Hn. eauto.
Qed.

Lemma match_at_None_prefix r s m :
  match_at r false s = None → m `prefix_of` s → ¬ matches r m.
Proof.
  intros HN Hp Hm.
  destruct (match_at_complete r m Hm false s Hp) as [n Hn]; [done | congruence].
Qed.

(** Patterns that start with a character to consume. *)
Lemma head_one_inv r : head_one r = true → ∃ a r', r = One a :: r'.
Proof. destruct r as [|[a|a] r']; try done. eauto. Qed.

Lemma head_one_nil r adv : head_one r = true → match_at r adv [] = None.
Proof. intros (a & r' & ->)%head_one_inv. done. Qed.

Lemma head_one_pos r adv s : head_one r = true → match_at r adv s ≠ Some 0%nat.
Proof.
  intros (a & r' & ->)%head_one_inv. simpl. destruct s as [|c s']; [done|].
  destruct (atom_match a c); [|done]. by destruct (match_at r' false s').
Qed.

End Matcher.

(** ** The scan of [re.sub] *)

Section Scan.

Context (r : regex) (repl : str) (Hr : head_one r = true).

Lemma gsub_nil : gsub r repl [] = [].
Proof. unfold gsub. simpl. by rewrite head_one_nil. Qed.

Lemma sub_from_drop : ∀ s k, sub_from r repl k s = gsub r repl (drop k s).
Proof.
  induction s as [|c s IH]; intros k.
  - rewrite drop_nil. unfold gsub. simpl. rewrite head_one_nil by done.
    by destruct k.
  - destruct k as [|k]; [done|]. simpl. apply IH.
Qed.

(** One step of the scan: an occurrence at the front is replaced and the scan
    goes on behind it, otherwise the first character is kept. *)
Lemma gsub_cons c s :
  gsub r repl (c :: s) =
  match match_at r false (c :: s) with
  | Some (S m) => repl ++ gsub r repl (drop m s)
  | _ => c :: gsub r repl s
  end.
Proof.
  unfold gsub at 1. cbn [sub_from].
  destruct (match_at r false (c :: s)) as [[|m]|] eqn:E.
  - by apply head_one_pos in E.
  - by rewrite sub_from_drop.
  - done.
Qed.

Lemma gsub_miss c s :
  match_at r false (c :: s) = None → gsub r repl (c :: s) = c :: gsub r repl s.
Proof. intros H. by rewrite gsub_cons, H. Qed.

Lemma gsub_hit c s m :
  match_at r false (c :: s) = Some (S m) →
  gsub r repl (c :: s) = repl ++ gsub r repl (drop m s).
Proof. intros H. by rewrite gsub_cons, H. Qed.

(** An induction principle that follows the scan. *)
Lemma scan_ind_len (P : str → Prop) :
  P [] →
  (∀ c s, match_at r false (c :: s) = None → P s → P (c :: s)) →
  (∀ c s m, match_at r false (c :: s) = Some (S m) → (m ≤ length s)%nat →
            P (drop m s) → P (c :: s)) →
  ∀ s, P s.
Proof.
  intros Hnil Hmiss Hhit s.
  remember (length s) as n eqn:Hn. revert s Hn.
  induction n as [n IH] using lt_wf_ind. intros [|c s] Hn; [done|].
  simpl in Hn. destruct (match_at r false (c :: s)) as [[|m]|] eqn:E.
  - by apply head_one_pos in E.
  - destruct (match_at_sound _ _ _ _ E) as (Hl & _). simpl in Hl.
    apply (Hhit _ _ _ E); [lia|].
    apply (IH (length (drop m s))); [rewrite length_drop; lia | done].
  - apply Hmiss; [done|]. apply (IH (length s)); [lia | done].
Qed.

(** Without an occurrence the text is returned as it is. *)
Lemma gsub_no_occurrence s : occurs r s = false → gsub r repl s = s.
Proof.
  induction s as [|c s IH]; intros H; [apply gsub_nil|].
  simpl in H. apply orb_false_iff in H as [H1 H2].
  rewrite gsub_miss; [by rewrite IH|].
  apply bool_decide_eq_false in H1.
  destruct (match_at r false (c :: s)); [by exfalso; apply H1 | done].
Qed.

(** The result is the left-to-right replacement of the occurrences. *)
Lemma gsub_scan s : scan r repl s (gsub r repl s).
Proof.
  induction s as [|c s Hm IH|c s m Hm Hl IH] using scan_ind_len.
  - rewrite gsub_nil. constructor.
  - rewrite gsub_miss by done. constructor; [|done].
    intros m Hp. by eapply match_at_None_prefix.
  - rewrite (gsub_hit _ _ _ Hm).
    destruct (match_at_sound _ _ _ _ Hm) as (_ & Hmat & _).
    rewrite <- (take_drop (S m) (c :: s)) at 1.
    constructor; [done | done | done].
Qed.

End Scan.

(** [occurs] decides [occurs_in]. *)
Lemma occurs_iff r s : occurs r s = true ↔ occurs_in r s.
Proof.
  split.
  - induction s as [|c s IH]; simpl.
    + intros [n Hn]%bool_decide_eq_true.
      destruct (match_at_sound _ _ _ _ Hn) as (_ & Hm & _).
      rewrite take_nil in Hm. by exists [], [], [].
    + intros [[n Hn]%bool_decide_eq_true|H]%orb_true_iff.
      * destruct (match_at_sound _ _ _ _ Hn) as (_ & Hm & _).
        exists [], (take n (c :: s)), (drop n (c :: s)).
        split; [|done]. simpl. by rewrite take_drop.
      * destruct (IH H) as (pre & m & post & -> & Hm).
        by exists (c :: pre), m, post.
  - intros (pre & m & post & -> & Hm).
    assert (Hhere : ∀ t, m `prefix_of` t → occurs r t = true).
    { intros t Hp.
      pose proof (match_at_complete r m Hm false t Hp (fun H => False_ind _ (diff_false_true H))) as Hs.
      destruct t; simpl; [by apply bool_decide_eq_true|].
      apply orb_true_iff. left. by apply bool_decide_eq_true. }
    induction pre as [|c pre IH]; simpl.
    + apply Hhere. by eexists.
    + apply orb_true_iff. by right.
Qed.

(** ** Texts that substitution treats piece by piece *)

Section Split.

Implicit Types (r : regex) (a b s : str) (adv : bool).

Lemma match_at_adv_nil r : match_at r true [] = None.
Proof.
  destruct (match_at r true []) as [n|] eqn:E; [|done].
  destruct (match_at_sound _ _ _ _ E) as (Hl & _ & Hn). simpl in Hl.
  exfalso. apply Hn; [done | lia].
Qed.

Lemma match_at_adv_None r s : match_at r false s = None → match_at r true s = None.
Proof.
  revert s. induction r as [|[x|x] r IH]; intros s H; [done | done |].
  change (star x (match_at r) false s = None) in H.
  change (star x (match_at r) true s = None).
  destruct s as [|c s]; simpl in *; [by apply IH|].
  destruct (atom_match x c); [|by apply IH].
  destruct (star x (match_at r) false s); [done | by apply IH].
Qed.

Lemma match_at_None_nil r adv s : match_at r false s = None → match_at r adv [] = None.
Proof.
  intros H. destruct adv; [apply match_at_adv_nil|].
  destruct (match_at r false []) as [n|] eqn:E; [|done].
  destruct (match_at_sound _ _ _ _ E) as (_ & Hm & _).
  destruct (match_at_complete r _ Hm false s) as [k Hk]; [|done|congruence].
  rewrite take_nil. apply prefix_nil.
Qed.

Lemma elem_of_tails1 {A} (l l2 : list A) :
  l2 ≠ [] → l2 `suffix_of` l → l2 ∈ tails1 l.
Proof.
  intros Hne. induction l as [|x l IH]; intros Hs.
  - by apply suffix_nil_inv in Hs.
  - simpl. destruct l2 as [|y l2]; [done|].
    apply suffix_cons_inv in Hs as [[= -> ->]|Hs]; [left | right; by apply IH].
Qed.

(** When no rest of the pattern can match at the start of [b], a match
    attempt on [a ++ b] sees only [a]. *)
Lemma match_at_app_left r b :
  Forall (fun r2 => match_at r2 false b = None) (tails1 r) →
  ∀ adv a, match_at r adv (a ++ b) = match_at r adv a.
Proof.
  induction r as [|[x|x] r IH]; intros HF adv a; [done | |].
  - apply Forall_cons in HF as [H1 HF].
    destruct a as [|c a]; [exact H1|]. simpl. by rewrite IH.
  - apply Forall_cons in HF as [H1 HF]. specialize (IH HF).
    change (star x (match_at r) adv (a ++ b) = star x (match_at r) adv a).
    change (star x (match_at r) false b = None) in H1.
    revert adv. induction a as [|c a IHa]; intros adv.
    + simpl. transitivity (@None nat).
      * destruct adv; [|done].
        by apply (match_at_adv_None (Star x :: r)).
      * symmetry. apply (match_at_None_nil _ _ b). by apply star_None in H1.
    + pose proof (IH adv (c :: a)) as Hk. simpl in *. by rewrite IHa, Hk.
Qed.

Lemma cannot_start_None r c b adv :
  cannot_start r c = true → match_at r adv (c :: b) = None.
Proof.
  revert adv. induction r as [|[x|x] r IH]; intros adv H; [done | |].
  - simpl in *. by destruct (atom_match x c).
  - simpl in *. apply andb_true_iff in H as [H1 H2].
    destruct (atom_match x c); [done|]. by apply IH.
Qed.

(** When no match attempt on [a] asks for a character after its end, the
    attempt on [a ++ b] sees only [a]. *)
Lemma match_at_app_right r : ∀ adv a b,
  runs_out r a = false → match_at r adv (a ++ b) = match_at r adv a.
Proof.
  induction r as [|[x|x] r IH]; intros adv a b H; [done | |].
  - destruct a as [|c a]; [done|]. simpl in *.
    destruct (atom_match x c); [|done]. by rewrite IH.
  - change (runs_star x (runs_out r) a = false) in H.
    change (star x (match_at r) adv (a ++ b) = star x (match_at r) adv a).
    revert adv H. induction a as [|c a IHa]; intros adv H; [done|].
    simpl in *. apply orb_false_iff in H as [H1 H2].
    pose proof (IH adv (c :: a) b H2) as Hk. simpl in Hk. rewrite Hk.
    destruct (atom_match x c); [|done]. simpl in H1. by rewrite IHa.
Qed.

Context (r : regex) (repl : str) (Hr : head_one r = true).

Lemma gsub_app_core a b :
  (∀ a2, a2 ≠ [] → a2 `suffix_of` a →
         match_at r false (a2 ++ b) = match_at r false a2) →
  gsub r repl (a ++ b) = gsub r repl a ++ gsub r repl b.
Proof.
  induction a as [|c a Hm IH|c a m Hm Hl IH] using (scan_ind_len r Hr); intros H.
  - by rewrite (gsub_nil r repl Hr).
  - assert (Hm' : match_at r false (c :: a ++ b) = None).
    { rewrite <- Hm. by apply (H (c :: a)). }
    simpl. rewrite !(gsub_miss r repl Hr) by done. simpl. f_equal.
    apply IH. intros a2 Hne Hs. apply H; [done | by apply suffix_cons_r].
  - assert (Hm' : match_at r false (c :: a ++ b) = Some (S m)).
    { rewrite <- Hm. by apply (H (c :: a)). }
    simpl. rewrite (gsub_hit r repl Hr _ _ _ Hm), (gsub_hit r repl Hr _ _ _ Hm').
    rewrite drop_app_le by done. rewrite <- (assoc_L (++)). f_equal.
    apply IH. intros a2 Hne Hs. apply H; [done|].
    apply suffix_cons_r. etrans; [exact Hs | apply suffix_drop].
Qed.

Lemma gsub_app_left a b :
  Forall (fun r2 => match_at r2 false b = None) (tails1 (tail r)) →
  gsub r repl (a ++ b) = gsub r repl a ++ gsub r repl b.
Proof.
  intros HF. apply gsub_app_core. intros [|c a2] Hne _; [done|].
  destruct (head_one_inv r Hr) as (x & r' & ->). simpl in *.
  by rewrite (match_at_app_left r' b HF).
Qed.

Lemma gsub_app_sep a c b :
  sep_left r c = true →
  gsub r repl (a ++ c :: b) = gsub r repl a ++ gsub r repl (c :: b).
Proof.
  intros H. apply gsub_app_left. apply Forall_forall. intros r2 Hin.
  apply cannot_start_None.
  unfold sep_left in H. rewrite forallb_forall in H. apply H.
  by apply list_elem_of_In.
Qed.

Lemma gsub_app_right a b :
  sep_right r a = true →
  gsub r repl (a ++ b) = gsub r repl a ++ gsub r repl b.
Proof.
  intros H. apply gsub_app_core. intros a2 Hne Hs.
  apply match_at_app_right. apply negb_true_iff.
  unfold sep_right in H. rewrite forallb_forall in H. apply H.
  apply list_elem_of_In. by apply elem_of_tails1.
Qed.

End Split.

Lemma fold_rules_cons r repl rs s :
  fold_rules ((r, repl) :: rs) s = fold_rules rs (gsub r repl s).
Proof. reflexivity. Qed.

(** An isolated piece is rewritten on its own, whatever surrounds it. *)
Lemma fold_rules_isolated rs : ∀ pre piece post,
  isolated rs piece = true →
  fold_rules rs (pre ++ piece ++ post)
  = fold_rules rs pre ++ fold_rules rs piece ++ fold_rules rs post.
Proof.
  induction rs as [|[r repl] rs IH]; intros pre piece post H; [done|].
  simpl in H. destruct piece as [|c piece]; [by rewrite !andb_false_r in H|].
  repeat (apply andb_true_iff in H as [H ?]).
  rewrite !fold_rules_cons.
  change (pre ++ (c :: piece) ++ post) with (pre ++ c :: (piece ++ post)).
  rewrite (gsub_app_sep r repl) by done.
  change (c :: (piece ++ post)) with ((c :: piece) ++ post).
  rewrite (gsub_app_right r repl) by done.
  by apply IH.
Qed.

(** ** The compiled patterns *)

Lemma apply_patterns_fold ps rs :
  Forall2 (fun (p : str * str) (rule : regex * str) =>
             compile p.1 = Some rule.1 ∧ template p.2 = Some rule.2) ps rs →
  ∀ s, apply_patterns ps s = Some (fold_rules rs s).
Proof.
  induction 1 as [|[p t] [r repl] ps rs [Hc Ht] _ IH]; intros s; [done|].
  simpl in *. unfold sub. rewrite Hc, Ht. simpl. apply IH.
Qed.

Lemma patterns_rules :
  Forall2 (fun (p : str * str) (rule : regex * str) =>
             compile p.1 = Some rule.1 ∧ template p.2 = Some rule.2) patterns rules.
Proof. repeat constructor. Qed.

(** The loop of the script computes the migration pass. *)
Lemma apply_patterns_transform s : apply_patterns patterns s = Some (transform s).
Proof. apply apply_patterns_fold, patterns_rules. Qed.

Lemma rules_head_one : Forall (fun rule : regex * str => head_one rule.1 = true) rules.
Proof. repeat constructor. Qed.

(** ** Weights *)

Lemma is_space_weight c : is_space c = true → weight c = 0%Z.
Proof.
  intros H. unfold weight. case_bool_decide as Hin.
  - exfalso. revert H. cbv [txt list_ascii_of_string map] in Hin. simpl in Hin.
    rewrite !elem_of_cons in Hin.
    destruct Hin as [->|[->|[->|[->|[->|Hin]]]]]; try done.
    by apply elem_of_nil in Hin.
  - case_bool_decide as Heq; [by subst | done].
Qed.

Lemma wt_app a b : wt (a ++ b) = (wt a + wt b)%Z.
Proof. induction a as [|c a IH]; simpl; [done | rewrite IH; lia]. Qed.

Lemma matches_wt r m : light r = true → matches r m → wt m = rw r.
Proof.
  intros Hl Hm. induction Hm as [|a r c m Ha Hm IH|a r m Hm IH|a r c m Ha Hm IH].
  - done.
  - simpl in Hl. destruct a as [d|]; simpl in *.
    + apply N.eqb_eq in Ha as ->. by rewrite IH.
    + rewrite (is_space_weight c Ha), IH by done. lia.
  - simpl in Hl. apply andb_true_iff in Hl as [_ Hl].
    rewrite IH by done. by destruct a.
  - rewrite <- (IH Hl). simpl in Hl. apply andb_true_iff in Hl as [Hi _].
    change (wt (c :: m)) with (weight c + wt m)%Z.
    destruct a as [d|]; simpl in *.
    + apply N.eqb_eq in Ha as ->. apply bool_decide_eq_true in Hi. lia.
    + rewrite (is_space_weight c Ha). lia.
Qed.

Section Weight.

Context (r : regex) (repl : str) (Hlow : lowering (r, repl) = true).

Lemma lowering_head_one : head_one r = true.
Proof. unfold lowering in Hlow. simpl in Hlow. by repeat (apply andb_true_iff in Hlow as [Hlow ?]). Qed.

(** A substitution never raises the weight and lowers it when the pattern
    occurs. *)
Lemma wt_gsub s :
  (wt (gsub r repl s) ≤ wt s)%Z ∧
  (occurs r s = true → (wt (gsub r repl s) < wt s)%Z).
Proof.
  pose proof lowering_head_one as Hr.
  unfold lowering in Hlow. simpl in Hlow.
  apply andb_true_iff in Hlow as [H1 Hw]. apply andb_true_iff in H1 as [_ Hl].
  apply bool_decide_eq_true in Hw.
  induction s as [|c s Hm IH|c s m Hm Hlen IH] using (scan_ind_len r Hr).
  - rewrite (gsub_nil r repl Hr). split; [done|]. simpl.
    rewrite (head_one_nil r false Hr). done.
  - rewrite (gsub_miss r repl Hr) by done. simpl. rewrite Hm.
    destruct IH as [IH1 IH2]. split; [lia|].
    rewrite bool_decide_eq_false_2 by (by intros [? ?]). simpl.
    intros Ho. specialize (IH2 Ho). lia.
  - rewrite (gsub_hit r repl Hr _ _ _ Hm).
    destruct (match_at_sound _ _ _ _ Hm) as (_ & Hmat & _).
    apply (matches_wt _ _ Hl) in Hmat.
    assert (Hsplit : wt (c :: s) = (rw r + wt (drop m s))%Z).
    { rewrite <- Hmat. rewrite <- wt_app.
      by rewrite <- (take_drop (S m) (c :: s)) at 1. }
    rewrite wt_app, Hsplit. destruct IH as [IH1 _]. lia.
Qed.

End Weight.

Lemma rules_lowering : forallb lowering rules = true.
Proof. reflexivity. Qed.

Lemma wt_fold_rules rs :
  forallb lowering rs = true → ∀ s, (wt (fold_rules rs s) ≤ wt s)%Z.
Proof.
  induction rs as [|[r repl] rs IH]; intros H s; [done|].
  simpl in H. apply andb_true_iff in H as [H1 H2].
  rewrite fold_rules_cons.
  pose proof (IH H2 (gsub r repl s)). pose proof (wt_gsub r repl H1 s). lia.
Qed.

(** A sequence of lowering substitutions leaves a text as it is exactly when
    none of its patterns occurs in the text. *)
Lemma fold_rules_fixed rs :
  forallb lowering rs = true →
  ∀ s, fold_rules rs s = s ↔ Forall (fun rule : regex * str => occurs rule.1 s = false) rs.
Proof.
  induction rs as [|[r repl] rs IH]; intros H s; [by split|].
  simpl in H. apply andb_true_iff in H as [H1 H2].
  rewrite fold_rules_cons, Forall_cons. simpl.
  pose proof (lowering_head_one r repl H1) as Hr.
  split.
  - intros Hfix.
    assert (Ho : occurs r s = false).
    { destruct (occurs r s) eqn:Ho; [|done]. exfalso.
      pose proof (wt_fold_rules rs H2 (gsub r repl s)).
      destruct (wt_gsub r repl H1 s) as [_ Hlt]. specialize (Hlt Ho).
      rewrite Hfix in *. lia. }
    split; [done|]. apply (IH H2).
    by rewrite (gsub_no_occurrence r repl Hr s Ho) in Hfix.
  - intros [Ho HF]. rewrite (gsub_no_occurrence r repl Hr s Ho). by apply IH.
Qed.

(** ** The optional forms *)

Lemma transform_some_of inner pre post :
  inner ∈ [txt "frame"; txt "video_frame"; txt "frame_data"] →
  transform (pre ++ some_of inner ++ post)
  = transform pre ++ wrapped inner ++ transform post.
Proof.
  intros Hin. unfold transform.
  rewrite !elem_of_cons in Hin.
  destruct Hin as [->|[->|[->|Hin]]]; [| | |by apply elem_of_nil in Hin];
    by rewrite fold_rules_isolated by reflexivity.
Qed.

(** A form that is already wrapped stays as it is. *)
Lemma transform_wrapped inner pre post :
  inner ∈ [txt "frame"; txt "video_frame"; txt "frame_data"] →
  transform (pre ++ wrapped inner ++ post)
  = transform pre ++ wrapped inner ++ transform post.
Proof.
  intros Hin. unfold transform.
  rewrite !elem_of_cons in Hin.
  destruct Hin as [->|[->|[->|Hin]]]; [| | |by apply elem_of_nil in Hin];
    by rewrite fold_rules_isolated by reflexivity.
Qed.

Lemma some_of_app inner t : txt "Some(" ++ inner ++ txt ")" ++ t = some_of inner ++ t.
Proof. unfold some_of. by rewrite <- !(assoc_L (++)). Qed.

Lemma wrapped_app inner t :
  txt "Some(RenderData::Raster2D(" ++ inner ++ txt "))" ++ t = wrapped inner ++ t.
Proof. unfold wrapped. by rewrite <- !(assoc_L (++)). Qed.

(** ** One file *)

(** What [fix_frame_data_in_file] does, case by case. *)
Lemma fix_frame_data_in_file_eq path w :
  fix_frame_data_in_file path w =
  match files w !! resolve w path with
  | None => (Raise FileNotFoundError, w)
  | Some f =>
      if may_read f then
        match text f with
        | None => (Raise UnicodeDecodeError, w)
        | Some content =>
            if bool_decide (transform content ≠ content) then
              if may_write f then
                match stdout_error w (stdout w) (fixed_line path) with
                | Some e => (Raise e, overwritten path f (transform content) w)
                | None => (Ok tt, rewritten path f (transform content) w)
                end
              else (Raise PermissionError, w)
            else (Ok tt, w)
        end
      else (Raise PermissionError, w)
  end.
Proof.
  unfold fix_frame_data_in_file, bind, read_text.
  destruct (files w !! resolve w path) as [f|] eqn:Hf; [|done].
  destruct (may_read f) eqn:Hrd; [|done].
  destruct (text f) as [content|]; [|done].
  rewrite apply_patterns_transform.
  case_bool_decide; [|done].
  unfold write_text. rewrite Hf. destruct (may_write f); [|done].
  unfold print. simpl. by destruct (stdout_error w (stdout w) (fixed_line path)).
Qed.

Lemma resolve_links w w' p : links w' = links w → resolve w' p = resolve w p.
Proof. unfold resolve. by intros ->. Qed.

(** ** Paths *)

Lemma suffix_app_sep {A} (l x y : list A) c :
  c ∉ l → l `suffix_of` x ++ c :: y → l `suffix_of` y.
Proof.
  destruct l as [|d l]; [intros; apply suffix_nil|].
  intros Hc. induction x as [|z x IH]; simpl; intros Hs.
  - apply suffix_cons_inv in Hs as [E|Hs]; [|done].
    exfalso. apply Hc. injection E as -> ->. by left.
  - apply suffix_cons_inv in Hs as [E|Hs]; [|by apply IH].
    exfalso. apply Hc. rewrite E. right. apply elem_of_app. right. by left.
Qed.

Lemma endswith_slash_inv a : endswith a (txt "/") = true → ∃ a', a = a' ++ [47].
Proof. intros [a' ->]%bool_decide_eq_true. by exists a'. Qed.

(** The joined path ends in [.rs] exactly when the file name does. *)
Lemma path_join_endswith root file :
  endswith (path_join root file) (txt ".rs") = endswith file (txt ".rs").
Proof.
  unfold path_join. destruct (startswith file (txt "/")); [done|].
  assert (Hno : 47 ∉ txt ".rs") by (by apply (bool_decide_unpack _)).
  assert (Hsep : ∀ a, endswith (a ++ 47 :: file) (txt ".rs") = endswith file (txt ".rs")).
  { intros a. unfold endswith. apply bool_decide_ext. split.
    - by apply suffix_app_sep.
    - intros Hs. by apply suffix_app_r, suffix_cons_r. }
  destruct (bool_decide (root = [])) eqn:Hnil.
  - apply bool_decide_eq_true in Hnil as ->. done.
  - simpl. destruct (endswith root (txt "/")) eqn:Hsl.
    + apply endswith_slash_inv in Hsl as [a' ->].
      rewrite <- (assoc_L (++)). apply Hsep.
    + apply Hsep.
Qed.

Lemma fixed_line_inj p q : fixed_line p = fixed_line q → p = q.
Proof. unfold fixed_line. apply app_inv_head. Qed.

(** ** Loops *)

Lemma for_each_app {A} (l1 l2 : list A) body w :
  for_each (l1 ++ l2) body w = (for_each l1 body ;; for_each l2 body) w.
Proof.
  revert w. induction l1 as [|x l1 IH]; intros w; [done|].
  simpl. unfold bind in *. destruct (body x w) as [[[]|e] w']; [apply IH | done].
Qed.

(** Once the body raises, the loop is left with that exception and the
    world as it was then. *)
Lemma for_each_raise {A} (l1 l2 : list A) x body w w1 e w2 :
  for_each l1 body w = (Ok tt, w1) → body x w1 = (Raise e, w2) →
  for_each (l1 ++ x :: l2) body w = (Raise e, w2).
Proof.
  intros H1 H2. rewrite for_each_app. unfold bind. rewrite H1.
  simpl. unfold bind. by rewrite H2.
Qed.

(** ** One occurrence per position *)

Lemma disjoint_atoms_excl a b c :
  disjoint_atoms a b = true → atom_match a c = true → atom_match b c = true → False.
Proof.
  destruct a as [x|], b as [y|]; simpl; intros Hd Ha Hb; try done.
  - apply N.eqb_eq in Ha as ->. apply N.eqb_eq in Hb as ->.
    by rewrite N.eqb_refl in Hd.
  - apply N.eqb_eq in Ha as ->. by rewrite Hb in Hd.
  - apply N.eqb_eq in Hb as ->. by rewrite Ha in Hd.
Qed.

Lemma prefix_cons_both {A} (x y : A) l1 l2 s :
  x :: l1 `prefix_of` s → y :: l2 `prefix_of` s →
  x = y ∧ ∃ s', l1 `prefix_of` s' ∧ l2 `prefix_of` s'.
Proof.
  intros [k1 ->] [k2 E]. injection E as -> E.
  split; [done|]. exists (l1 ++ k1). split; [by eexists | by exists k2].
Qed.

(** An unambiguous pattern matches at most one prefix of a text. *)
Lemma matches_unique r m1 :
  matches r m1 → unambiguous r = true →
  ∀ m2 s, matches r m2 → m1 `prefix_of` s → m2 `prefix_of` s → m1 = m2.
Proof.
  induction 1 as [|a r c m Ha Hm IH|a r m Hm IH|a r c m Ha Hm IH];
    intros Hu m2 s H2 Hp1 Hp2.
  - by inversion H2.
  - inversion H2 as [|a' r' c' m2' Ha' Hm2'| |]; subst.
    destruct (prefix_cons_both _ _ _ _ _ Hp1 Hp2) as (-> & s' & Hq1 & Hq2).
    f_equal. by apply (IH Hu m2' s').
  - simpl in Hu. destruct r as [|[b|b] r']; try done.
    apply andb_true_iff in Hu as [Hd Hu].
    inversion H2 as [| |a' r2 m2' Hm2'|a' r2 c' m2' Ha' Hm2']; subst.
    + by apply (IH Hu m2 s).
    + exfalso. inversion Hm as [|b' r3 c m' Hb Hm'| |]; subst.
      destruct (prefix_cons_both _ _ _ _ _ Hp1 Hp2) as (-> & _).
      by apply (disjoint_atoms_excl a b c').
  - pose proof Hu as Hu'. simpl in Hu'. destruct r as [|[b|b] r']; try done.
    apply andb_true_iff in Hu' as [Hd _].
    inversion H2 as [| |a' r2 m2' Hm2'|a' r2 c' m2' Ha' Hm2']; subst.
    + exfalso. inversion Hm2' as [|b' r3 c2 m' Hb Hm'| |]; subst.
      destruct (prefix_cons_both _ _ _ _ _ Hp1 Hp2) as (-> & _).
      by apply (disjoint_atoms_excl a b c2).
    + destruct (prefix_cons_both _ _ _ _ _ Hp1 Hp2) as (-> & s' & Hq1 & Hq2).
      f_equal. by apply (IH Hu m2' s').
Qed.

(** For an unambiguous pattern the scan has one outcome. *)
Lemma scan_unique r repl s out1 :
  unambiguous r = true → scan r repl s out1 →
  ∀ out2, scan r repl s out2 → out1 = out2.
Proof.
  intros Hu. induction 1 as [|m rest out Hne Hm Hs IH|c s out Hno Hs IH]; intros out2 H2.
  - remember [] as t eqn:Et.
    destruct H2 as [|m' rest' out' Hne' Hm' Hs'|]; [done | | done].
    apply app_eq_nil in Et as [-> _]. done.
  - remember (m ++ rest) as t eqn:Et.
    destruct H2 as [|m' rest' out' Hne' Hm' Hs'|c s out' Hno Hs'].
    + symmetry in Et. apply app_eq_nil in Et as [-> _]. done.
    + assert (m = m') as <-.
      { apply (matches_unique r m Hm Hu m' (m ++ rest)); [done | by eexists |].
        rewrite <- Et. by eexists. }
      apply app_inv_head in Et as ->. f_equal. by apply IH.
    + exfalso. apply (Hno m); [|done]. rewrite Et. by eexists.
  - remember (c :: s) as t eqn:Et.
    destruct H2 as [|m' rest' out' Hne' Hm' Hs'|c' s' out' Hno' Hs'].
    + done.
    + exfalso. apply (Hno m'); [|done]. rewrite Et. by eexists.
    + injection Et as -> ->. f_equal. by apply IH.
Qed.

Lemma rules_unambiguous : Forall (fun rule : regex * str => unambiguous rule.1 = true) rules.
Proof. repeat constructor. Qed.

(** ** Field patterns: a name, any whitespace, [None,] *)

Lemma match_at_lit l r s :
  match_at (lit l ++ r) false (l ++ s)
  = (fun n => (length l + n)%nat) <$> match_at r false s.
Proof.
  induction l as [|c l IH]; simpl.
  - by destruct (match_at r false s).
  - rewrite N.eqb_refl, IH. by destruct (match_at r false s).
Qed.

Lemma star_run a k ws s n :
  forallb (atom_match a) ws = true → star a k false s = Some n →
  star a k false (ws ++ s) = Some (length ws + n)%nat.
Proof.
  intros Hws Hs. induction ws as [|c ws IH]; [done|].
  simpl in *. apply andb_true_iff in Hws as [-> Hws]. by rewrite IH.
Qed.

Lemma matches_lit l : matches (lit l) l.
Proof. induction l as [|c l IH]; constructor; [apply N.eqb_refl | done]. Qed.

Lemma matches_lit_app l r m : matches r m → matches (lit l ++ r) (l ++ m).
Proof. intros H. induction l as [|c l IH]; [done|]. constructor; [apply N.eqb_refl | done]. Qed.

Lemma matches_star_run a r ws m :
  forallb (atom_match a) ws = true → matches r m → matches (Star a :: r) (ws ++ m).
Proof.
  intros Hws Hm. induction ws as [|c ws IH]; [by constructor|].
  simpl in *. apply andb_true_iff in Hws as [Hc Hws]. by apply matches_more; [|apply IH].
Qed.

Section Field.

Context (name : str) (repl : str).

Local Abbreviation field_regex := (field_regex name).

Context (Hname : name ≠ [])
  (Hsep : Forall (fun r2 => ∀ rest, match_at r2 false (name ++ rest) = None)
                 (tails1 (tail field_regex))).

Lemma field_matches ws : forallb is_space ws = true →
  matches field_regex (name ++ ws ++ txt "None,").
Proof.
  intros Hws. apply matches_lit_app, matches_star_run; [done|]. apply matches_lit.
Qed.

Lemma field_match_at ws post : forallb is_space ws = true →
  match_at field_regex false (name ++ ws ++ txt "None," ++ post)
  = Some (length name + (length ws + 5))%nat.
Proof.
  intros Hws. unfold field_regex. rewrite match_at_lit.
  change (match_at (Star Space :: lit (txt "None,")))
    with (star Space (match_at (lit (txt "None,")))).
  by rewrite (star_run Space _ ws _ 5 Hws).
Qed.

Lemma field_head_one : head_one field_regex = true.
Proof. unfold field_regex. by destruct name. Qed.

(** Every run of whitespace between the name and [None,] is taken by the
    pattern, and the occurrence is replaced as a whole. *)
Lemma gsub_field pre ws post : forallb is_space ws = true →
  gsub field_regex repl (pre ++ name ++ ws ++ txt "None," ++ post)
  = gsub field_regex repl pre ++ repl ++ gsub field_regex repl post.
Proof.
  intros Hws. pose proof field_head_one as Hh.
  pose proof (field_match_at ws post Hws) as Hm.
  rewrite (gsub_app_left _ _ Hh)
    by (eapply Forall_impl; [exact Hsep|]; intros r2 H; apply H).
  f_equal. destruct name as [|c name']; [done|].
  change ((c :: name') ++ ws ++ txt "None," ++ post)
    with (c :: (name' ++ ws ++ txt "None," ++ post)) in *.
  change (length (c :: name') + (length ws + 5))%nat
    with (S (length name' + (length ws + 5))) in Hm.
  rewrite (gsub_hit _ _ Hh _ _ _ Hm). do 2 f_equal.
  rewrite !(assoc_L (++)). apply drop_app_length'.
  rewrite !length_app. change (length (txt "None,")) with 5%nat. lia.
Qed.

End Field.

(** ** The file as written *)

(** The tokenizer refuses the text, because of line 25 and of no other
    line; with the backslash of that line removed it accepts it. *)
Lemma source_refused :
  accepted source = false ∧
  filter (fun line => negb (lex_line InCode line)) source
  = [txt "    if new_content \!= content:"] ∧
  source !! 24%nat = Some (txt "    if new_content \!= content:") ∧
  accepted repaired = true.
Proof. by vm_compute. Qed.

(** The script as written runs none of its statements: it raises
    [SyntaxError] and leaves every file and the console as they were. *)
Lemma script_eq tree w : script tree w = (Raise SyntaxError, w).
Proof. unfold script, run_module. by rewrite (proj1 source_refused). Qed.

(** C1: on a tree with the one file [lib.rs], which holds [video_data:], the
    call the loop would make is the one on that file and the left fold of
    [re.sub] over the eight patterns yields [render_data:], but the script
    as written stops with [SyntaxError] and the file still holds
    [video_data:]: its final content is not the fold. *)
Theorem C1_script_leaves_content :
  length patterns = 8%nat ∧
  fold_left (fun acc (p : str * str) => acc ≫= sub p.1 p.2) patterns
            (Some (txt "video_data:"))
  = Some (txt "render_data:") ∧
  rs_paths (os_walk ROOT sample_tree) = [sample_path] ∧
  script sample_tree (sample_world (txt "video_data:"))
  = (Raise SyntaxError, sample_world (txt "video_data:")) ∧
  text <$> files (script sample_tree (sample_world (txt "video_data:"))).2 !! sample_path
  = Some (Some (txt "video_data:")).
Proof.
  split; [done|]. split; [by vm_compute|]. split; [by vm_compute|].
  rewrite script_eq. split; reflexivity.
Qed.

(** C2: on a tree with the one file [lib.rs], which holds
    [tally_data: None, x], the transformed content differs from the content
    of the file, but the script as written stops with [SyntaxError]: the
    file is not overwritten and no line is printed. *)
Theorem C2_script_never_writes :
  apply_patterns patterns (txt "tally_data: None, x") = Some (txt " x") ∧
  txt " x" ≠ txt "tally_data: None, x" ∧
  script sample_tree (sample_world (txt "tally_data: None, x"))
  = (Raise SyntaxError, sample_world (txt "tally_data: None, x")) ∧
  files (script sample_tree (sample_world (txt "tally_data: None, x"))).2 !! sample_path
  = Some (sample_file (txt "tally_data: None, x")) ∧
  stdout (script sample_tree (sample_world (txt "tally_data: None, x"))).2 = [].
Proof.
  split; [by vm_compute|]. split; [done|].
  rewrite script_eq. repeat split; reflexivity.
Qed.

(** C8: on a tree with the one file [lib.rs], which holds
    [let x = Some(frame);], the pass yields
    [let x = Some(RenderData::Raster2D(frame));], but the script as written
    stops with [SyntaxError]: the file still holds [Some(frame)], it is not
    rewritten and no line is printed. *)
Theorem C8_script_leaves_some_frame :
  apply_patterns patterns (txt "let x = Some(frame);")
  = Some (txt "let x = Some(RenderData::Raster2D(frame));") ∧
  script sample_tree (sample_world (txt "let x = Some(frame);"))
  = (Raise SyntaxError, sample_world (txt "let x = Some(frame);")) ∧
  files (script sample_tree (sample_world (txt "let x = Some(frame);"))).2 !! sample_path
  = Some (sample_file (txt "let x = Some(frame);")) ∧
  stdout (script sample_tree (sample_world (txt "let x = Some(frame);"))).2 = [].
Proof.
  split; [by vm_compute|].
  rewrite script_eq. repeat split; reflexivity.
Qed.

(** ** The function with line 25 read as [!=] *)

Lemma fold_left_sub ps rs :
  Forall2 (fun (p : str * str) (rule : regex * str) =>
             compile p.1 = Some rule.1 ∧ template p.2 = Some rule.2) ps rs →
  ∀ s, fold_left (fun acc (p : str * str) => acc ≫= sub p.1 p.2) ps (Some s)
       = Some (fold_rules rs s).
Proof.
  induction 1 as [|[p t] [r repl] ps rs [Hc Ht] _ IH]; intros s; [done|].
  simpl in *. unfold sub at 2. rewrite Hc, Ht. simpl. apply IH.
Qed.

(** A text that holds one of the three optional forms is changed by the
    pass: the wrapped form weighs less. *)
Lemma transform_some_of_changes inner pre post :
  inner ∈ [txt "frame"; txt "video_frame"; txt "frame_data"] →
  transform (pre ++ some_of inner ++ post) ≠ pre ++ some_of inner ++ post.
Proof.
  intros Hin E. rewrite (transform_some_of _ _ _ Hin) in E.
  apply (f_equal wt) in E. rewrite !wt_app in E.
  pose proof (wt_fold_rules rules rules_lowering pre) as H1.
  pose proof (wt_fold_rules rules rules_lowering post) as H2.
  fold (transform pre) in H1. fold (transform post) in H2.
  assert (wt (wrapped inner) < wt (some_of inner))%Z; [|lia].
  rewrite !elem_of_cons in Hin.
  by destruct Hin as [->|[->|[->|Hin]]]; [| | |by apply elem_of_nil in Hin].
Qed.

(** With line 25 read as [!=], a call on a path that denotes a file which
    can be read and written, in a world whose standard output takes the
    line, ends normally; the file then holds the left fold of [re.sub] over
    the eight patterns, and it was written, and the line printed, exactly
    when that differs from the content read. *)
Lemma repaired_call path w f content :
  files w !! resolve w path = Some f →
  may_read f = true → may_write f = true → text f = Some content →
  stdout_error w (stdout w) (fixed_line path) = None →
  fold_left (fun acc (p : str * str) => acc ≫= sub p.1 p.2) patterns (Some content)
  = Some (transform content) ∧
  fix_frame_data_in_file path w
  = (Ok tt, if bool_decide (transform content ≠ content)
            then rewritten path f (transform content) w else w).
Proof.
  intros Hf Hrd Hwr Htx Hout. split; [apply (fold_left_sub _ _ patterns_rules)|].
  rewrite fix_frame_data_in_file_eq, Hf, Hrd, Htx, Hwr, Hout.
  by case_bool_decide.
Qed.

(** With line 25 read as [!=], a link named [lib.rs] under [ROOT] has the
    file it denotes rewritten, although that file is kept elsewhere under a
    name that does not end in [.rs]. *)
Example repaired_main_follows_link :
  main sample_tree linked_world
  = (Ok tt, rewritten sample_path (sample_file (txt "video_data:")) (txt "render_data:")
                      linked_world) ∧
  files (main sample_tree linked_world).2 !! notes_path
  = Some (File (Some (txt "render_data:")) true true 1) ∧
  stdout (main sample_tree linked_world).2 = [txt "Fixed patterns in " ++ sample_path].
Proof. repeat split; reflexivity. Qed.

(** With line 25 read as [!=] and the standard output a closed pipe, the
    file is rewritten, no line is printed, and the run ends with the
    exception of [print]. *)
Example repaired_main_closed_pipe :
  main sample_tree closed_pipe_world
  = (Raise BrokenPipeError,
     overwritten sample_path (sample_file (txt "video_data:")) (txt "render_data:")
                 closed_pipe_world) ∧
  files (main sample_tree closed_pipe_world).2 !! sample_path
  = Some (File (Some (txt "render_data:")) true true 1) ∧
  stdout (main sample_tree closed_pipe_world).2 = [].
Proof. repeat split; reflexivity. Qed.

(** ** One pattern at a time *)

Lemma sub_rule (p : str * str) (rule : regex * str) s :
  compile p.1 = Some rule.1 → template p.2 = Some rule.2 →
  rule.2 = p.2 ∧ sub p.1 p.2 s = Some (gsub rule.1 p.2 s).
Proof.
  intros Hc Ht. unfold sub. rewrite Hc. simpl.
  unfold template in *. case_bool_decide; [done|]. by injection Ht as <-.
Qed.

(** C3: one application of a pattern of the list replaces every
    non-overlapping occurrence of its search expression, found from left to
    right, by the replacement text, and keeps every other character; this
    fixes the result. *)
Theorem C3_every_occurrence_replaced :
  Forall (fun p : str * str =>
    ∀ s, ∃ r out,
      compile p.1 = Some r ∧ sub p.1 p.2 s = Some out ∧
      scan r p.2 s out ∧ ∀ out', scan r p.2 s out' → out' = out) patterns.
Proof.
  apply Forall_lookup. intros i p Hi s.
  destruct (Forall2_lookup_l _ _ _ _ _ patterns_rules Hi) as (rule & Hr & Hc & Ht).
  pose proof (Forall_lookup_1 _ _ _ _ rules_head_one Hr) as Hh.
  pose proof (Forall_lookup_1 _ _ _ _ rules_unambiguous Hr) as Hu.
  destruct (sub_rule p rule s Hc Ht) as [_ Hs].
  exists rule.1, (gsub rule.1 p.2 s). split; [done|]. split; [done|].
  split; [by apply gsub_scan|].
  intros out' H'. symmetry. eapply scan_unique; [exact Hu | by apply gsub_scan | done].
Qed.

(** Both occurrences in a text are replaced, not only the first. *)
Example sub_replaces_all :
  sub (txt "video_data:") (txt "render_data:") (txt "video_data: a, video_data: b")
  = Some (txt "render_data: a, render_data: b").
Proof. reflexivity. Qed.

(** ** Order of the patterns *)

Lemma apply_patterns_app ps1 ps2 s :
  apply_patterns (ps1 ++ ps2) s = apply_patterns ps1 s ≫= apply_patterns ps2.
Proof.
  revert s. induction ps1 as [|[p t] ps1 IH]; intros s; [done|].
  simpl. destruct (sub p t s); [apply IH | done].
Qed.

(** C4: for consecutive patterns P1 then P2 of the list the loop computes
    the substitution of P2 on the result of the substitution of P1, and on
    some input the two orders give different texts. *)
Theorem C4_order_sensitive ps1 p1 p2 ps2 s :
  patterns = ps1 ++ p1 :: p2 :: ps2 →
  (∃ s0 s1 s2,
     apply_patterns ps1 s = Some s0 ∧
     sub p1.1 p1.2 s0 = Some s1 ∧ sub p2.1 p2.2 s1 = Some s2 ∧
     apply_patterns patterns s = apply_patterns ps2 s2) ∧
  (∀ q1 q2 : str * str,
     apply_patterns [q1; q2] s = sub q1.1 q1.2 s ≫= sub q2.1 q2.2) ∧
  (∃ q1 q2 rest,
     patterns = q1 :: q2 :: rest ∧
     sub q1.1 q1.2 joined_by_removal ≫= sub q2.1 q2.2 = Some (txt "video_data:") ∧
     sub q2.1 q2.2 joined_by_removal ≫= sub q1.1 q1.2 = Some (txt "render_data:")).
Proof.
  intros Hsplit. split.
  - pose proof (apply_patterns_transform s) as Hall.
    rewrite Hsplit, apply_patterns_app in Hall.
    rewrite Hsplit, apply_patterns_app.
    destruct (apply_patterns ps1 s) as [s0|]; [|done]. simpl in *.
    destruct p1 as [p1 t1], p2 as [p2 t2]. simpl in *.
    destruct (sub p1 t1 s0) as [s1|] eqn:E1; [|done]. simpl in *.
    destruct (sub p2 t2 s1) as [s2|] eqn:E2; [|done].
    by exists s0, s1, s2.
  - split; [|by eexists _, _, _].
    intros [q1 t1] [q2 t2]. simpl. destruct (sub q1 t1 s) as [s1|]; [|done].
    simpl. by destruct (sub q2 t2 s1).
Qed.

Lemma C4_order_sensitive_witness :
  (∃ s0 s1 s2,
     apply_patterns [] joined_by_removal = Some s0 ∧
     sub (txt "video_data:") (txt "render_data:") s0 = Some s1 ∧
     sub (txt "tally_data:\s*None,") (txt "") s1 = Some s2 ∧
     apply_patterns patterns joined_by_removal = apply_patterns (drop 2 patterns) s2).
Proof.
  exact (proj1 (C4_order_sensitive []
                  (txt "video_data:", txt "render_data:")
                  (txt "tally_data:\s*None,", txt "")
                  (drop 2 patterns) joined_by_removal eq_refl)).
Defined.

(** ** A second pass *)

(** C5, as the specification states it, fails: the first pass removes
    [tally_data:None,] and so brings [video_] and [data:] together, and
    only a second pass renames the result. *)
Lemma C5_idempotent_counterexample :
  apply_patterns patterns joined_by_removal = Some (txt "video_data:") ∧
  apply_patterns patterns (txt "video_data:") = Some (txt "render_data:") ∧
  transform (transform joined_by_removal) ≠ transform joined_by_removal.
Proof. split; [done|]. split; [done|]. by vm_compute. Qed.

(** C5, amended: a second pass leaves the result of the first as it is
    exactly when none of the eight search expressions occurs in that result. *)
Theorem C5_second_pass_fixed_iff s :
  apply_patterns patterns s = Some (transform s) ∧
  (transform (transform s) = transform s ↔
   Forall (fun rule : regex * str => ¬ occurs_in rule.1 (transform s)) rules).
Proof.
  split; [apply apply_patterns_transform|].
  unfold transform at 1. rewrite (fold_rules_fixed rules rules_lowering).
  apply Forall_iff. intros rule. rewrite <- occurs_iff. by destruct (occurs _ _).
Qed.

(** ** Files that are not sources *)

(** C6: a file whose name does not end in [.rs] is passed over by the loop
    body before any pattern is applied; whatever it holds, a run of the
    script ends the same way with the file as it was, every file keeps its
    content and modification state, and nothing is printed. *)
Theorem C6_script_leaves_other_files tree w root name f :
  endswith name (txt ".rs") = false →
  (∀ w0, visit root name w0 = (Ok tt, w0)) ∧
  script tree (with_file (path_join root name) f w)
  = ((script tree w).1, with_file (path_join root name) f (script tree w).2) ∧
  files (script tree w).2 = files w ∧
  stdout (script tree w).2 = stdout w.
Proof.
  intros Hname. split.
  - intros w0. unfold visit. by rewrite Hname.
  - by rewrite !script_eq.
Qed.

Lemma C6_script_leaves_other_files_witness :
  script sample_tree (with_file (path_join ROOT (txt "notes.txt"))
                         (sample_file (txt "video_data:")) (sample_world []))
  = ((script sample_tree (sample_world [])).1,
     with_file (path_join ROOT (txt "notes.txt")) (sample_file (txt "video_data:"))
       (script sample_tree (sample_world [])).2).
Proof.
  refine (proj1 (proj2 (C6_script_leaves_other_files sample_tree (sample_world []) ROOT
                          (txt "notes.txt") (sample_file (txt "video_data:")) _))).
  vm_compute. reflexivity.
Defined.

(** ** Failures *)


(** Inputs with such failures: a directory that cannot be listed, and a
    file that cannot be read. *)
Example script_on_locked_tree :
  script locked_tree locked_world = (Raise SyntaxError, locked_world) ∧
  script sample_tree unreadable_world = (Raise SyntaxError, unreadable_world).
Proof. by rewrite !script_eq. Qed.

(** *** The loops with line 25 read as [!=] *)

Lemma bind_Ok_inv {A B} (m : M A) (k : A → M B) w b w2 :
  bind m k w = (Ok b, w2) → ∃ a w1, m w = (Ok a, w1) ∧ k a w1 = (Ok b, w2).
Proof. unfold bind. destruct (m w) as [[a|e] w1]; [eauto | done]. Qed.

Lemma for_each_skip {A} (l1 l2 : list A) x body w :
  (∀ w0, body x w0 = (Ok tt, w0)) →
  for_each (l1 ++ x :: l2) body w = for_each (l1 ++ l2) body w.
Proof.
  intros Hx. rewrite !for_each_app. unfold bind.
  destruct (for_each l1 body w) as [[[]|e] w1]; [|done].
  simpl. unfold bind. by rewrite Hx.
Qed.

(** A directory that cannot be listed is walked like an empty one:
    [os.walk] is called without [onerror] and drops the error. *)
Lemma walk_loop_unlistable top es1 dname es2 w :
  walk_loop (os_walk top (Some (es1 ++ EDir dname false None :: es2))) w
  = walk_loop (os_walk top (Some (es1 ++ EDir dname false (Some []) :: es2))) w.
Proof.
  unfold os_walk, walk_loop, dirs_of, nondirs_of.
  rewrite !filter_app, !flat_map_app, !filter_cons. simpl.
  unfold bind. destruct (for_each _ (visit top) w) as [[[]|e] w1]; [|done].
  symmetry. by apply for_each_skip.
Qed.

(** With line 25 read as [!=], the walk drops the error of the directory
    [locked], and the file found afterwards is processed. *)
Example repaired_main_skips_unlistable :
  walk_entry ROOT (EDir (txt "locked") false None) = [] ∧
  (main locked_tree locked_world).1 = Ok tt ∧
  stdout (main locked_tree locked_world).2 = [txt "Fixed patterns in " ++ later_path] ∧
  files (main locked_tree locked_world).2 !! later_path
  = Some (File (Some (txt "render_data:")) true true 1).
Proof. by vm_compute. Qed.

(** An exception of the call leaves both loops at once, with the world as
    the call left it, whatever files and directories were still to come. *)
Lemma walk_loop_raise before root dirs names1 name names2 after w w1 e w2 :
  walk_loop (before ++ [(root, dirs, names1)]) w = (Ok tt, w1) →
  visit root name w1 = (Raise e, w2) →
  walk_loop (before ++ (root, dirs, names1 ++ name :: names2) :: after) w
  = (Raise e, w2).
Proof.
  intros Hbefore Hfail.
  unfold walk_loop in *. rewrite for_each_app in Hbefore.
  apply bind_Ok_inv in Hbefore as ([] & wb & Hb & Hlast).
  simpl in Hlast. apply bind_Ok_inv in Hlast as ([] & w1' & Hn & [= <-]).
  apply (for_each_raise _ _ _ _ _ wb); [done|].
  by apply (for_each_raise _ _ _ _ _ w1').
Qed.

(** ** Whitespace between a field name and [None,] *)

Lemma field_sep_tally :
  Forall (fun r2 => ∀ rest, match_at r2 false (txt "tally_data:" ++ rest) = None)
         (tails1 (tail (field_regex (txt "tally_data:")))).
Proof. repeat constructor. Qed.

Lemma field_sep_scene3d :
  Forall (fun r2 => ∀ rest, match_at r2 false (txt "scene3d_data:" ++ rest) = None)
         (tails1 (tail (field_regex (txt "scene3d_data:")))).
Proof. repeat constructor. Qed.

Lemma field_sep_spatial_audio :
  Forall (fun r2 => ∀ rest, match_at r2 false (txt "spatial_audio_data:" ++ rest) = None)
         (tails1 (tail (field_regex (txt "spatial_audio_data:")))).
Proof. repeat constructor. Qed.

Lemma field_sep_transform :
  Forall (fun r2 => ∀ rest, match_at r2 false (txt "transform_data:" ++ rest) = None)
         (tails1 (tail (field_regex (txt "transform_data:")))).
Proof. repeat constructor. Qed.

Lemma sub_field name repl pre ws post :
  name ≠ [] →
  compile (name ++ txt "\s*None,") = Some (field_regex name) →
  template repl = Some repl →
  Forall (fun r2 => ∀ rest, match_at r2 false (name ++ rest) = None)
         (tails1 (tail (field_regex name))) →
  forallb is_space ws = true →
  match_at (field_regex name) false (name ++ ws ++ txt "None," ++ post)
  = Some (length (name ++ ws ++ txt "None,")) ∧
  sub (name ++ txt "\s*None,") repl (pre ++ name ++ ws ++ txt "None," ++ post)
  = Some (gsub (field_regex name) repl pre ++ repl ++ gsub (field_regex name) repl post).
Proof.
  intros Hne Hc Ht Hsep Hws. split.
  - rewrite (field_match_at name ws post Hws). f_equal.
    rewrite !length_app. done.
  - unfold sub. rewrite Hc, Ht. simpl. f_equal. by apply gsub_field.
Qed.

(** C9: the patterns for [tally_data], [scene3d_data], [spatial_audio_data]
    and [transform_data] take the field name, any run of whitespace (none,
    several spaces, newlines) and [None,]; the occurrence is replaced as a
    whole, for [transform_data] by [control_data: None,] with one space. *)
Theorem C9_whitespace_runs ws pre post :
  forallb is_space ws = true →
  Forall (fun '(name, repl) =>
    (name ++ txt "\s*None,", repl) ∈ patterns ∧
    compile (name ++ txt "\s*None,") = Some (field_regex name) ∧
    matches (field_regex name) (name ++ ws ++ txt "None,") ∧
    match_at (field_regex name) false (name ++ ws ++ txt "None," ++ post)
    = Some (length (name ++ ws ++ txt "None,")) ∧
    sub (name ++ txt "\s*None,") repl (pre ++ name ++ ws ++ txt "None," ++ post)
    = Some (gsub (field_regex name) repl pre ++ repl
            ++ gsub (field_regex name) repl post))
    [ (txt "tally_data:", txt ""); (txt "scene3d_data:", txt "");
      (txt "spatial_audio_data:", txt "");
      (txt "transform_data:", txt "control_data: None,") ] ∧
  is_space 32 = true ∧ is_space 10 = true ∧ is_space 9 = true ∧
  forallb is_space [] = true.
Proof.
  intros Hws. split; [|done].
  repeat first [apply Forall_nil_2 | apply Forall_cons_2].
  all: lazy beta iota.
  all: split; [by apply (bool_decide_unpack _)|].
  all: split; [reflexivity|].
  all: split; [by apply field_matches|].
  - by apply sub_field; [| | |apply field_sep_tally|].
  - by apply sub_field; [| | |apply field_sep_scene3d|].
  - by apply sub_field; [| | |apply field_sep_spatial_audio|].
  - by apply sub_field; [| | |apply field_sep_transform|].
Qed.

Lemma C9_whitespace_runs_witness :
  sub (txt "transform_data:\s*None,") (txt "control_data: None,")
      (txt "a " ++ txt "transform_data:" ++ [32; 10; 9; 32] ++ txt "None," ++ txt " b")
  = Some (txt "a control_data: None, b").
Proof.
  pose proof (proj1 (C9_whitespace_runs [32; 10; 9; 32] (txt "a ") (txt " b") eq_refl)) as H.
  do 3 apply Forall_inv_tail in H. apply Forall_inv in H.
  exact (proj2 (proj2 (proj2 (proj2 H)))).
Defined.

(** ** The three optional forms *)

Lemma sub_some_frame s :
  sub (txt "Some\(frame\)") (txt "Some(RenderData::Raster2D(frame))") s
  = Some (gsub (lit (txt "Some(frame)")) (txt "Some(RenderData::Raster2D(frame))") s).
Proof.
  exact (proj2 (sub_rule (txt "Some\(frame\)", txt "Some(RenderData::Raster2D(frame))")
                  (lit (txt "Some(frame)"), txt "Some(RenderData::Raster2D(frame))")
                  s eq_refl eq_refl)).
Qed.

(** C10: [Some\(frame\)] has no occurrence in [Some(video_frame)] or
    [Some(frame_data)] and leaves them as they are in any text; in every
    text each of the three forms is wrapped once by the pass, and a wrapped
    form is not wrapped again. *)
Theorem C10_wrapped_once :
  compile (txt "Some\(frame\)") = Some (lit (txt "Some(frame)")) ∧
  Forall (fun other =>
    ¬ occurs_in (lit (txt "Some(frame)")) other ∧
    ∀ pre post,
      sub (txt "Some\(frame\)") (txt "Some(RenderData::Raster2D(frame))")
          (pre ++ other ++ post)
      = Some (gsub (lit (txt "Some(frame)")) (txt "Some(RenderData::Raster2D(frame))") pre
              ++ other
              ++ gsub (lit (txt "Some(frame)")) (txt "Some(RenderData::Raster2D(frame))") post))
    [txt "Some(video_frame)"; txt "Some(frame_data)"] ∧
  Forall (fun inner =>
    ∀ pre post,
      apply_patterns patterns (pre ++ txt "Some(" ++ inner ++ txt ")" ++ post)
      = Some (transform pre ++ txt "Some(RenderData::Raster2D(" ++ inner ++ txt "))"
              ++ transform post) ∧
      apply_patterns patterns
        (pre ++ txt "Some(RenderData::Raster2D(" ++ inner ++ txt "))" ++ post)
      = Some (transform pre ++ txt "Some(RenderData::Raster2D(" ++ inner ++ txt "))"
              ++ transform post))
    [txt "frame"; txt "video_frame"; txt "frame_data"].
Proof.
  split; [reflexivity|]. split.
  - repeat first [apply Forall_nil_2 | apply Forall_cons_2].
    all: split; [by rewrite <- occurs_iff|]; intros pre post.
    all: rewrite sub_some_frame; f_equal.
    all: set (rule := (lit (txt "Some(frame)"), txt "Some(RenderData::Raster2D(frame))")).
    + exact (fold_rules_isolated [rule] pre (txt "Some(video_frame)") post eq_refl).
    + exact (fold_rules_isolated [rule] pre (txt "Some(frame_data)") post eq_refl).
  - apply Forall_forall. intros inner Hin pre post.
    rewrite !apply_patterns_transform, some_of_app, !wrapped_app.
    split; f_equal; [by apply transform_some_of | by apply transform_wrapped].
Qed.

(** ** Further properties: when a text is changed *)

Lemma rules_lowering_lookup i rule : rules !! i = Some rule → lowering rule = true.
Proof.
  intros Hi. pose proof rules_lowering as H. rewrite forallb_forall in H.
  apply H, list_elem_of_In. by eapply list_elem_of_lookup_2.
Qed.

(** A lowering substitution leaves a text as it is exactly when its pattern
    does not occur in the text. *)
Lemma gsub_fixed_iff r repl s :
  lowering (r, repl) = true → gsub r repl s = s ↔ ¬ occurs_in r s.
Proof.
  intros Hlow. rewrite <- occurs_iff. split.
  - intros Hfix Ho. destruct (wt_gsub r repl Hlow s) as [_ Hlt].
    specialize (Hlt Ho). rewrite Hfix in Hlt. lia.
  - intros Ho. apply (gsub_no_occurrence r repl (lowering_head_one r repl Hlow)).
    by destruct (occurs r s).
Qed.

(** X2: for each pattern of the list, [re.sub] returns the text unchanged
    exactly when the pattern does not occur in it. *)
Theorem X2_sub_unchanged_iff_no_occurrence :
  Forall (fun p : str * str =>
    ∀ s, ∃ r, compile p.1 = Some r ∧ (sub p.1 p.2 s = Some s ↔ ¬ occurs_in r s))
    patterns.
Proof.
  apply Forall_lookup. intros i p Hi s.
  destruct (Forall2_lookup_l _ _ _ _ _ patterns_rules Hi) as ([r repl] & Hr & Hc & Ht).
  pose proof (rules_lowering_lookup _ _ Hr) as Hlow.
  destruct (sub_rule p (r, repl) s Hc Ht) as [Hrepl Hs]. simpl in *. subst repl.
  exists r. split; [done|]. rewrite Hs, <- (gsub_fixed_iff r p.2 s Hlow).
  split; [by intros [= ->] | by intros ->].
Qed.

Lemma Exists_Forall2_iff {A B} (R : A → B → Prop) (P : A → Prop) (Q : B → Prop) l k :
  Forall2 R l k → (∀ a b, R a b → (P a ↔ Q b)) → Exists P l ↔ Exists Q k.
Proof.
  intros HF HR. induction HF as [|a b l k Hab _ IH]; [by rewrite !Exists_nil|].
  by rewrite !Exists_cons, (HR a b Hab), IH.
Qed.

Lemma pattern_occurs_rules s :
  pattern_occurs s ↔ Exists (fun rule : regex * str => occurs_in rule.1 s) rules.
Proof.
  apply (Exists_Forall2_iff _ _ _ _ _ patterns_rules).
  intros p rule [Hc _]. split.
  - intros (r & Hr & Ho). rewrite Hc in Hr. by injection Hr as <-.
  - intros Ho. by exists rule.1.
Qed.

(** The pass changes a text exactly when some search expression occurs in it. *)
Lemma transform_changes_iff s : transform s ≠ s ↔ pattern_occurs s.
Proof.
  rewrite pattern_occurs_rules. unfold transform.
  rewrite (fold_rules_fixed rules rules_lowering). split.
  - intros HF. apply not_Forall_Exists in HF; [|apply _].
    eapply Exists_impl; [exact HF|]. intros rule Hr. apply occurs_iff.
    simpl in Hr. by destruct (occurs rule.1 s).
  - intros HE HF. apply Exists_exists in HE as (rule & Hin & Ho).
    rewrite Forall_forall in HF. apply occurs_iff in Ho.
    specialize (HF rule Hin). congruence.
Qed.

(** X1: the pass changes a text exactly when at least one of the eight
    search expressions occurs in it; a text in which none occurs, the empty
    text included, comes out as it went in. *)
Theorem X1_pass_changes_iff_pattern_occurs s :
  ∃ new_content,
    apply_patterns patterns s = Some new_content ∧
    (new_content ≠ s ↔ pattern_occurs s) ∧
    (¬ pattern_occurs s → new_content = s).
Proof.
  exists (transform s). split; [apply apply_patterns_transform|].
  split; [apply transform_changes_iff|].
  intros Hno. destruct (decide (transform s = s)) as [|Hne]; [done|].
  by apply transform_changes_iff in Hne.
Qed.

(** ** Further properties: renamed fields stay in place *)

Lemma stops_None q u t : stops q u = true → match_at q false (u ++ t) = None.
Proof.
  intros [Hro Hm]%andb_true_iff. apply negb_true_iff in Hro.
  apply bool_decide_eq_true in Hm. by rewrite match_at_app_right.
Qed.

Lemma stops_Forall (qs : list regex) u t :
  forallb (fun q => stops q u) qs = true →
  Forall (fun q => match_at q false (u ++ t) = None) qs.
Proof.
  intros H. apply Forall_forall. intros q Hq. apply stops_None.
  rewrite forallb_forall in H. by apply H, list_elem_of_In.
Qed.

Lemma fold_rules_isolated_wide rs : ∀ pre piece post,
  isolated_wide rs piece = true →
  fold_rules rs (pre ++ piece ++ post)
  = fold_rules rs pre ++ fold_rules rs piece ++ fold_rules rs post.
Proof.
  induction rs as [|[r repl] rs IH]; intros pre piece post H; [done|].
  simpl in H. repeat (apply andb_true_iff in H as [H ?]).
  rewrite !fold_rules_cons.
  rewrite (gsub_app_left r repl) by (done || by apply stops_Forall).
  rewrite (gsub_app_right r repl) by done.
  by apply IH.
Qed.

(** X3: in any text the pass turns an occurrence of [video_data:] into
    [render_data:] at the same place, the text before and the text after
    being transformed on their own. *)
Theorem X3_video_data_renamed_in_place pre post :
  apply_patterns patterns (pre ++ txt "video_data:" ++ post)
  = Some (transform pre ++ txt "render_data:" ++ transform post).
Proof.
  rewrite apply_patterns_transform. f_equal. unfold transform.
  by rewrite fold_rules_isolated_wide by reflexivity.
Qed.

Lemma gsub_space_run r repl ws t :
  head_one r = true → head_lit r = true → forallb is_space ws = true →
  gsub r repl (ws ++ t) = ws ++ gsub r repl t.
Proof.
  intros Hr Hl Hws. induction ws as [|c ws IH]; [done|].
  simpl in Hws. apply andb_true_iff in Hws as [Hc Hws].
  simpl. rewrite (gsub_miss r repl Hr); [by rewrite IH|].
  destruct r as [|[[x|]|] r']; try done. simpl in *.
  destruct (N.eqb_spec c x) as [->|]; [|done].
  by rewrite Hc in Hl.
Qed.

Lemma gsub_passes_field r repl name pre ws post :
  passes_field (r, repl) name = true → forallb is_space ws = true →
  gsub r repl (pre ++ name ++ ws ++ txt "None," ++ post)
  = gsub r repl pre ++ name ++ ws ++ txt "None," ++ gsub r repl post.
Proof.
  intros H Hws. unfold passes_field in H. simpl in H.
  repeat (apply andb_true_iff in H as [H ?]).
  repeat match goal with E : bool_decide _ = true |- _ => apply bool_decide_eq_true in E end.
  rewrite (gsub_app_left r repl) by (done || by apply stops_Forall).
  rewrite (gsub_app_right r repl H name) by done.
  rewrite (gsub_space_run r repl ws) by done.
  rewrite (gsub_app_right r repl H (txt "None,")) by done.
  congruence.
Qed.

(** X4: in any text the whole pass turns [transform_data:], any run of
    whitespace and [None,] into [control_data: None,] at the same place:
    the four patterns applied before leave the field alone and the three
    applied after leave the replacement alone. *)
Theorem X4_transform_data_renamed_in_place ws pre post :
  forallb is_space ws = true →
  apply_patterns patterns (pre ++ txt "transform_data:" ++ ws ++ txt "None," ++ post)
  = Some (transform pre ++ txt "control_data: None," ++ transform post).
Proof.
  intros Hws. rewrite apply_patterns_transform. f_equal.
  unfold transform, rules.
  do 4 (rewrite fold_rules_cons, (gsub_passes_field _ _ (txt "transform_data:")) by done).
  rewrite fold_rules_cons.
  change (lit (txt "transform_data:") ++ Star Space :: lit (txt "None,"))
    with (field_regex (txt "transform_data:")).
  rewrite (gsub_field (txt "transform_data:") _ ltac:(done) field_sep_transform) by done.
  rewrite (fold_rules_isolated_wide _ _ (txt "control_data: None,")) by reflexivity.
  rewrite !(fold_rules_cons _ _ _ pre), !(fold_rules_cons _ _ _ post).
  reflexivity.
Qed.

Lemma X4_transform_data_renamed_in_place_witness :
  apply_patterns patterns
    (txt "a, " ++ txt "transform_data:" ++ [10; 32; 32] ++ txt "None," ++ txt " b")
  = Some (transform (txt "a, ") ++ txt "control_data: None," ++ transform (txt " b")).
Proof.
  apply (X4_transform_data_renamed_in_place [10; 32; 32] (txt "a, ") (txt " b")).
  reflexivity.
Defined.

(** ** Further properties: what a pass leaves behind *)

Lemma matches_head_one_ne q m : head_one q = true → matches q m → m ≠ [].
Proof. intros (a & q' & ->)%head_one_inv Hm. by inversion Hm. Qed.

Lemma occurs_in_suffix q s t : t `suffix_of` s → occurs_in q t → occurs_in q s.
Proof.
  intros [k ->] (pre & m & post & -> & Hm).
  exists (k ++ pre), m, post. by rewrite <- (assoc_L (++)).
Qed.

(** An occurrence in [x ++ y] starts inside [x] or lies in [y]. *)
Lemma occurs_in_app_inv q x y :
  occurs_in q (x ++ y) →
  (∃ x2 m, x2 ≠ [] ∧ x2 `suffix_of` x ∧ matches q m ∧ m `prefix_of` x2 ++ y)
  ∨ occurs_in q y.
Proof.
  induction x as [|c x IH]; [by right|].
  intros ([|d pre] & m & post & E & Hm).
  - left. exists (c :: x), m. split; [done|]. split; [done|]. split; [done|].
    exists post. by rewrite E.
  - injection E as <- E.
    destruct IH as [(x2 & m' & Hne & Hs & Hm' & Hp)|Hy]; [by exists pre, m, post| |by right].
    left. exists x2, m'. split; [done|]. split; [by apply suffix_cons_r | done].
Qed.

(** A match that starts in kept text lies in the text that was scanned, when
    no rest of the pattern can go on into a replacement. *)
Lemma scan_prefix r repl s out :
  scan r repl s out →
  ∀ q2, Forall (fun q3 => ∀ t, match_at q3 false (repl ++ t) = None) (tails1 q2) →
  ∀ m, matches q2 m → m `prefix_of` out → m `prefix_of` s.
Proof.
  induction 1 as [|m0 rest out Hne Hm0 Hs IH|c s out Hno Hs IH]; intros q2 Hg m Hm Hp.
  - done.
  - destruct q2 as [|i q2']; [inversion Hm; apply prefix_nil|].
    simpl in Hg. apply Forall_cons in Hg as [Hg _].
    destruct (match_at_None_prefix _ _ _ (Hg out) Hp Hm).
  - revert Hg Hp. induction Hm as [|a q c' m Ha Hm _|a q m Hm IHm|a q c' m Ha Hm _];
      intros Hg Hp.
    + apply prefix_nil.
    + simpl in Hg. apply Forall_cons in Hg as [_ Hg].
      apply prefix_cons_inv_1 in Hp as Hc. subst c'.
      apply prefix_cons_inv_2 in Hp. apply prefix_cons. by apply (IH q).
    + simpl in Hg. apply Forall_cons in Hg as [_ Hg]. by apply IHm.
    + apply prefix_cons_inv_1 in Hp as Hc. subst c'.
      apply prefix_cons_inv_2 in Hp. apply prefix_cons. by apply (IH (Star a :: q)).
Qed.

Lemma no_new_head_one q rule : no_new q rule = true → head_one q = true.
Proof. unfold no_new. intros H. by repeat (apply andb_true_iff in H as [H ?]). Qed.

Lemma no_new_guard q rule :
  no_new q rule = true →
  Forall (fun q3 => ∀ t, match_at q3 false (rule.2 ++ t) = None) (tails1 (tail q)).
Proof.
  unfold no_new. intros H. repeat (apply andb_true_iff in H as [H ?]).
  apply Forall_forall. intros q3 Hq t. apply stops_None.
  match goal with H : forallb _ (tails1 (tail q)) = true |- _ =>
    rewrite forallb_forall in H; by apply H, list_elem_of_In end.
Qed.

Lemma no_new_inside q rule x2 t m :
  no_new q rule = true →
  x2 ≠ [] → x2 `suffix_of` rule.2 → matches q m → m `prefix_of` x2 ++ t → False.
Proof.
  unfold no_new. intros H Hne Hs Hm Hp. repeat (apply andb_true_iff in H as [H ?]).
  match goal with H : forallb _ (tails1 rule.2) = true |- _ =>
    rewrite forallb_forall in H;
    pose proof (H x2 (proj1 (list_elem_of_In _ _) (elem_of_tails1 _ _ Hne Hs))) as Hst end.
  by destruct (match_at_None_prefix _ _ _ (stops_None _ _ t Hst) Hp Hm).
Qed.

(** A match at the front of kept text lies in the scanned text. *)
Lemma no_new_front q r repl s out c m :
  no_new q (r, repl) = true →
  scan r repl s out → matches q m → m `prefix_of` c :: out → m `prefix_of` c :: s.
Proof.
  intros Hnew Hs Hm Hp. pose proof (no_new_guard q (r, repl) Hnew) as Hg.
  destruct (head_one_inv q (no_new_head_one q _ Hnew)) as (a & q' & ->).
  inversion Hm as [|a' q2 c' m' Ha Hm'| |]; subst.
  apply prefix_cons_inv_1 in Hp as Hc. subst c'.
  apply prefix_cons_inv_2 in Hp. apply prefix_cons.
  apply (scan_prefix r repl s out Hs q' Hg m' Hm' Hp).
Qed.

Lemma suffix_singleton_inv {A} (x2 : list A) c : x2 ≠ [] → x2 `suffix_of` [c] → x2 = [c].
Proof.
  intros Hne Hsuf. destruct x2 as [|d x2]; [done|].
  apply suffix_cons_inv in Hsuf as [E|Hsuf]; [done|].
  by apply suffix_nil_inv in Hsuf.
Qed.

(** The scan brings no occurrence of [q] into a text that had none. *)
Lemma scan_keeps_clear q r repl s out :
  no_new q (r, repl) = true →
  scan r repl s out → ¬ occurs_in q s → ¬ occurs_in q out.
Proof.
  intros Hnew.
  induction 1 as [|m0 rest out Hne Hm0 Hs IH|c s out Hno Hs IH]; intros Hclear; [done| |].
  - intros [(x2 & m & Hx & Hsuf & Hm & Hp)|Ho]%occurs_in_app_inv.
    + by apply (no_new_inside q (r, repl) x2 out m).
    + apply IH; [|done]. intros Hr. apply Hclear.
      apply (occurs_in_suffix q _ rest); [by apply suffix_app_r | done].
  - change (c :: out) with ([c] ++ out).
    intros [(x2 & m & Hx & Hsuf & Hm & Hp)|Ho]%occurs_in_app_inv.
    + apply suffix_singleton_inv in Hsuf as ->; [|done].
      apply Hclear. destruct (no_new_front q r repl s out c m Hnew Hs Hm Hp) as [post E].
      exists [], m, post. by rewrite E.
    + apply IH; [|done]. intros Hr. apply Hclear.
      apply (occurs_in_suffix q _ s); [by apply suffix_cons_r | done].
Qed.

(** After the scan for [r] no occurrence of [r] is left, when the replacement
    text cannot start or complete one. *)
Lemma scan_clears r repl s out :
  no_new r (r, repl) = true → scan r repl s out → ¬ occurs_in r out.
Proof.
  intros Hnew. induction 1 as [|m0 rest out Hne Hm0 Hs IH|c s out Hno Hs IH].
  - intros (pre & m & post & E & Hm).
    apply (matches_head_one_ne r m (no_new_head_one r _ Hnew) Hm).
    symmetry in E. apply app_eq_nil in E as [_ E]. by apply app_eq_nil in E as [E _].
  - intros [(x2 & m & Hx & Hsuf & Hm & Hp)|Ho]%occurs_in_app_inv; [|done].
    by apply (no_new_inside r (r, repl) x2 out m).
  - change (c :: out) with ([c] ++ out).
    intros [(x2 & m & Hx & Hsuf & Hm & Hp)|Ho]%occurs_in_app_inv; [|done].
    apply suffix_singleton_inv in Hsuf as ->; [|done].
    apply (Hno m); [|done]. by apply (no_new_front r r repl s out c m).
Qed.

Lemma fold_rules_keeps_clear q rs : ∀ s,
  Forall (fun rule : regex * str => head_one rule.1 = true ∧ no_new q rule = true) rs →
  ¬ occurs_in q s → ¬ occurs_in q (fold_rules rs s).
Proof.
  induction rs as [|[r repl] rs IH]; intros s HF Hclear; [done|].
  apply Forall_cons in HF as [[Hr Hnew] HF]. rewrite fold_rules_cons.
  apply IH; [done|].
  apply (scan_keeps_clear q r repl s); [done | by apply gsub_scan | done].
Qed.

(** A rule whose replacement cannot bring back its own pattern, followed by
    rules that cannot either, leaves no occurrence of the pattern. *)
Lemma fold_rules_clears before r repl after s :
  head_one r = true → no_new r (r, repl) = true →
  Forall (fun rule : regex * str => head_one rule.1 = true ∧ no_new r rule = true) after →
  ¬ occurs_in r (fold_rules (before ++ (r, repl) :: after) s).
Proof.
  intros Hr Hnew HF. unfold fold_rules. rewrite fold_left_app. simpl.
  apply (fold_rules_keeps_clear r after); [done|].
  eapply (scan_clears r repl); [exact Hnew|]. by apply gsub_scan.
Qed.

(** The last four search expressions do not occur in the result of a pass. *)
Lemma transform_clears s :
  Forall (fun rule : regex * str => ¬ occurs_in rule.1 (transform s)) (drop 4 rules).
Proof.
  unfold transform. repeat apply Forall_cons_2; [| | | |apply Forall_nil_2].
  - apply (fold_rules_clears (take 4 rules) _ _ (drop 5 rules)); [done|done|].
    repeat constructor.
  - apply (fold_rules_clears (take 5 rules) _ _ (drop 6 rules)); [done|done|].
    repeat constructor.
  - apply (fold_rules_clears (take 6 rules) _ _ (drop 7 rules)); [done|done|].
    repeat constructor.
  - apply (fold_rules_clears (take 7 rules) _ _ (drop 8 rules)); [done|done|].
    repeat constructor.
Qed.

(** X5: the result of a pass never holds an occurrence of the last four
    search expressions ([transform_data:\s*None,] and the three [Some(...)]
    forms), whatever the input. *)
Theorem X5_pass_leaves_no_late_pattern s :
  ∃ out, apply_patterns patterns s = Some out ∧
    Forall (fun p : str * str => ∃ r, compile p.1 = Some r ∧ ¬ occurs_in r out)
           (drop 4 patterns).
Proof.
  exists (transform s). split; [apply apply_patterns_transform|].
  pose proof (transform_clears s) as H.
  apply Forall_cons in H as [H5 H]. apply Forall_cons in H as [H6 H].
  apply Forall_cons in H as [H7 H]. apply Forall_cons in H as [H8 _].
  repeat apply Forall_cons_2; [| | | |apply Forall_nil_2]; eexists; (split; [reflexivity|]).
  - exact H5.
  - exact H6.
  - exact H7.
  - exact H8.
Qed.

(** X6: a second pass leaves the result of the first as it is exactly when
    none of the first four search expressions occurs in that result. *)
Theorem X6_second_pass_fixed_iff_early_patterns s :
  transform (transform s) = transform s ↔
  Forall (fun rule : regex * str => ¬ occurs_in rule.1 (transform s)) (take 4 rules).
Proof.
  assert (Hno : ∀ r t, occurs r t = false ↔ ¬ occurs_in r t).
  { intros r t. rewrite <- occurs_iff. by destruct (occurs r t). }
  unfold transform at 1. rewrite (fold_rules_fixed rules rules_lowering).
  rewrite <- (take_drop 4 rules) at 1. rewrite Forall_app. split.
  - intros [H _]. eapply Forall_impl; [exact H|]. intros rule Hr. by apply Hno.
  - intros H. split.
    + eapply Forall_impl; [exact H|]. intros rule Hr. by apply Hno.
    + eapply Forall_impl; [apply (transform_clears s)|]. intros rule Hr. by apply Hno.
Qed.

(** ** Further properties: what a run does to the files and the console *)

Lemma file_step_refl f : file_step f f.
Proof. split; [done|]. split; [done|]. by left. Qed.

Lemma file_step_trans f1 f2 f3 : file_step f1 f2 → file_step f2 f3 → file_step f1 f3.
Proof.
  intros (Hr1 & Hw1 & H1) (Hr2 & Hw2 & H2).
  split; [congruence|]. split; [congruence|].
  destruct H1 as [->|(Hm1 & c1 & c2 & Hc1 & Hc2 & Hlt1)]; [done|].
  destruct H2 as [->|(Hm2 & c2' & c3 & Hc2' & Hc3 & Hlt2)].
  - right. split; [done|]. by exists c1, c2.
  - right. split; [lia|]. exists c1, c3. rewrite Hc2 in Hc2'. injection Hc2' as <-.
    split; [done|]. split; [done | lia].
Qed.

Lemma file_step_mtime f f' : file_step f f' → (mtime f ≤ mtime f')%nat.
Proof. intros (_ & _ & [->|[H _]]); lia. Qed.

Lemma tracks_refl w : tracks w w.
Proof.
  split; [done|]. split; [done|]. split.
  - intros p. destruct (files w !! p); constructor. apply file_step_refl.
  - exists []. split; [by rewrite app_nil_r | constructor].
Qed.

Lemma tracks_trans w1 w2 w3 : tracks w1 w2 → tracks w2 w3 → tracks w1 w3.
Proof.
  intros (Hl1 & He1 & Hs1 & l1 & E1 & F1) (Hl2 & He2 & Hs2 & l2 & E2 & F2).
  split; [congruence|]. split; [congruence|]. split.
  - intros p. specialize (Hs1 p). specialize (Hs2 p).
    destruct Hs1 as [f1 f2 H12|]; inversion Hs2 as [f2' f3 H23|]; subst; constructor.
    by eapply file_step_trans.
  - exists (l1 ++ l2). split; [by rewrite E2, E1, (assoc_L (++))|].
    apply Forall_app. split.
    + eapply Forall_impl; [exact F1|].
      intros line (p & f & f' & -> & Hf & Hf' & Hlt).
      specialize (Hs2 (resolve w1 p)). rewrite Hf' in Hs2.
      inversion Hs2 as [f2 f3 H23 Ef2 Ef3|]; subst.
      exists p, f, f3. split; [done|]. split; [done|]. split; [done|].
      apply file_step_mtime in H23. lia.
    + eapply Forall_impl; [exact F2|].
      intros line (p & f & f' & -> & Hf & Hf' & Hlt).
      rewrite (resolve_links _ _ p Hl1) in Hf, Hf'.
      specialize (Hs1 (resolve w1 p)). rewrite Hf in Hs1.
      inversion Hs1 as [f1 f2 H12 Ef1 Ef2|]; subst.
      exists p, f1, f'. split; [done|]. split; [done|]. split; [done|].
      apply file_step_mtime in H12. lia.
Qed.

Lemma wt_fold_rules_lt rs :
  forallb lowering rs = true →
  ∀ s, fold_rules rs s ≠ s → (wt (fold_rules rs s) < wt s)%Z.
Proof.
  induction rs as [|[r repl] rs IH]; intros H s Hne; [done|].
  simpl in H. apply andb_true_iff in H as [H1 H2]. rewrite fold_rules_cons in *.
  pose proof (wt_fold_rules rs H2 (gsub r repl s)) as Hle.
  destruct (wt_gsub r repl H1 s) as [Hle' Hlt].
  destruct (occurs r s) eqn:Ho; [specialize (Hlt eq_refl); lia|].
  rewrite (gsub_no_occurrence r repl (lowering_head_one r repl H1) s Ho) in *.
  by apply IH.
Qed.

(** Overwriting the file a path denotes with the transformed content, when
    that differs, is a step the file may take. *)
Lemma overwritten_step path w f content (p : str) :
  files w !! resolve w path = Some f → text f = Some content →
  transform content ≠ content →
  option_Forall2 file_step (files w !! p)
                 (files (overwritten path f (transform content) w) !! p).
Proof.
  intros Hf Htx Hch. simpl. destruct (decide (p = resolve w path)) as [->|Hne].
  - rewrite lookup_insert_eq, Hf. constructor.
    split; [done|]. split; [done|]. right. simpl. split; [lia|].
    exists content, (transform content). split; [done|]. split; [done|].
    by apply (wt_fold_rules_lt rules rules_lowering).
  - rewrite lookup_insert_ne by done.
    destruct (files w !! p); constructor. apply file_step_refl.
Qed.

(** One call changes the world only in the allowed way, also when it ends
    with an exception. *)
Lemma tracks_fix path w : tracks w (fix_frame_data_in_file path w).2.
Proof.
  rewrite fix_frame_data_in_file_eq.
  destruct (files w !! resolve w path) as [f|] eqn:Hf; [|apply tracks_refl].
  destruct (may_read f); [|apply tracks_refl].
  destruct (text f) as [content|] eqn:Htx; [|apply tracks_refl].
  case_bool_decide as Hch; [|apply tracks_refl].
  destruct (may_write f); [|apply tracks_refl].
  destruct (stdout_error w (stdout w) (fixed_line path)) as [e|].
  - split; [done|]. split; [done|]. split.
    + intros p. by apply overwritten_step.
    + exists []. split; [by rewrite app_nil_r | constructor].
  - split; [done|]. split; [done|]. split.
    + intros p. by apply overwritten_step.
    + exists [fixed_line path]. split; [done|]. repeat constructor.
      exists path, f. eexists. split; [done|]. split; [done|].
      split; [apply lookup_insert_eq | simpl; lia].
Qed.

Lemma tracks_bind (m k : M unit) :
  (∀ w, tracks w (m w).2) → (∀ w, tracks w (k w).2) → ∀ w, tracks w (bind m (fun _ => k) w).2.
Proof.
  intros Hm Hk w. unfold bind. specialize (Hm w).
  destruct (m w) as [[[]|e] w1]; [|done]. simpl in *.
  eapply tracks_trans; [exact Hm | apply Hk].
Qed.

Lemma tracks_for_each {A} (l : list A) body :
  (∀ x w, tracks w (body x w).2) → ∀ w, tracks w (for_each l body w).2.
Proof.
  intros Hb. induction l as [|x l IH]; [apply tracks_refl|].
  simpl. by apply tracks_bind.
Qed.

Lemma tracks_visit root name w : tracks w (visit root name w).2.
Proof.
  unfold visit. destruct (endswith name (txt ".rs")); [apply tracks_fix | apply tracks_refl].
Qed.

Lemma tracks_walk_loop yielded w : tracks w (walk_loop yielded w).2.
Proof.
  apply tracks_for_each. intros [[root dirs] names] w0.
  apply tracks_for_each, tracks_visit.
Qed.


(** What [tracks] says about the printed lines. *)
Lemma tracks_lines w w' :
  tracks w w' →
  ∃ lines,
    stdout w' = stdout w ++ lines ∧
    ∀ p : str, txt "Fixed patterns in " ++ p ∈ lines →
      ∃ f f', files w !! resolve w p = Some f ∧ files w' !! resolve w p = Some f' ∧
              (mtime f < mtime f')%nat ∧ text f' ≠ text f.
Proof.
  intros (_ & _ & Hs & lines & E & HF). exists lines. split; [done|].
  intros p Hin. rewrite Forall_forall in HF.
  destruct (HF _ Hin) as (p' & f & f' & Heq & Hf & Hf' & Hlt).
  apply fixed_line_inj in Heq as <-. exists f, f'.
  split; [done|]. split; [done|]. split; [done|].
  specialize (Hs (resolve w p)). rewrite Hf, Hf' in Hs.
  inversion Hs as [f0 f0' (_ & _ & H) E1 E2|]; subst.
  destruct H as [->|(_ & c & c' & -> & -> & Hwt)]; [lia|].
  intros [= ->]. lia.
Qed.

(** X8: a run, of the file as written or with line 25 read as [!=],
    finished or aborted, only adds lines to the console, and a line names
    a path only when the file that path denotes was written during the run
    and holds another text than before. *)
Theorem X8_lines_name_written_files tree w :
  Forall (fun run : M unit =>
            ∃ lines,
              stdout (run w).2 = stdout w ++ lines ∧
              ∀ p : str, txt "Fixed patterns in " ++ p ∈ lines →
                ∃ f f', files w !! resolve w p = Some f ∧
                        files (run w).2 !! resolve w p = Some f' ∧
                        (mtime f < mtime f')%nat ∧ text f' ≠ text f)
         [script tree; main tree].
Proof.
  apply Forall_cons_2; [|apply Forall_cons_2; [|apply Forall_nil_2]].
  - rewrite script_eq. apply tracks_lines, tracks_refl.
  - apply tracks_lines, tracks_walk_loop.
Qed.

(** ** Further properties: files the run does not reach *)

Lemma for_each_visit root names w :
  for_each names (visit root) w
  = for_each (path_join root <$> filter (fun name => endswith name (txt ".rs") = true) names)
             fix_frame_data_in_file w.
Proof.
  revert w. induction names as [|name names IH]; intros w; [done|].
  simpl. unfold visit at 1. destruct (endswith name (txt ".rs")) eqn:E.
  - rewrite filter_cons_True by done. simpl. unfold bind.
    destruct (fix_frame_data_in_file _ w) as [[[]|e] w1]; [apply IH | done].
  - rewrite filter_cons_False by (by rewrite E). simpl. apply IH.
Qed.

(** The loops call [fix_frame_data_in_file] on the paths of [rs_paths], one
    after the other. *)
Lemma walk_loop_rs_paths yielded w :
  walk_loop yielded w = for_each (rs_paths yielded) fix_frame_data_in_file w.
Proof.
  unfold walk_loop. revert w.
  induction yielded as [|[[root dirs] names] yielded IH]; intros w; [done|].
  simpl. rewrite for_each_app. unfold bind. rewrite for_each_visit. simpl.
  destruct (for_each _ fix_frame_data_in_file w) as [[[]|e] w1]; [apply IH | done].
Qed.

(** A call on a path that does not denote the file named [p] neither reads
    nor writes that file: with [f] put there, it ends the same way and [f]
    is still there. *)
Lemma fix_frame path (p : str) f w :
  resolve w path ≠ p →
  fix_frame_data_in_file path (with_file p f w)
  = ((fix_frame_data_in_file path w).1,
     with_file p f (fix_frame_data_in_file path w).2).
Proof.
  intros Hne. rewrite !fix_frame_data_in_file_eq.
  change (resolve (with_file p f w) path) with (resolve w path).
  change (files (with_file p f w)) with (<[p := f]> (files w)).
  change (stdout_error (with_file p f w)) with (stdout_error w).
  change (stdout (with_file p f w)) with (stdout w).
  rewrite lookup_insert_ne by done.
  destruct (files w !! resolve w path) as [g|]; [|done].
  destruct (may_read g); [|done]. destruct (text g) as [content|]; [|done].
  case_bool_decide; [|done]. destruct (may_write g); [|done].
  destruct (stdout_error w (stdout w) (fixed_line path)); simpl;
    unfold rewritten, overwritten, with_file; simpl;
    change (resolve (World (links w) (<[p := f]> (files w)) (stdout w) (stdout_error w)) path)
      with (resolve w path);
    by rewrite insert_insert_ne.
Qed.

Lemma for_each_fix_frame (p : str) f paths : ∀ w,
  Forall (fun q => resolve w q ≠ p) paths →
  for_each paths fix_frame_data_in_file (with_file p f w)
  = ((for_each paths fix_frame_data_in_file w).1,
     with_file p f (for_each paths fix_frame_data_in_file w).2).
Proof.
  induction paths as [|q paths IH]; intros w HF; [done|].
  apply Forall_cons in HF as [Hq HF]. simpl. unfold bind.
  rewrite (fix_frame _ _ _ _ Hq).
  pose proof (tracks_fix q w) as (Hl & _).
  destruct (fix_frame_data_in_file q w) as [[[]|e] w1]; simpl in *; [|done].
  apply IH. eapply Forall_impl; [exact HF|].
  intros q'. by rewrite (resolve_links _ _ _ Hl).
Qed.

Lemma path_join_prefix a b : startswith b (txt "/") = false → a `prefix_of` path_join a b.
Proof.
  intros Hb. unfold path_join. rewrite Hb.
  match goal with |- context [if ?c then _ else _] => destruct c end;
    [by exists b | by exists (txt "/" ++ b)].
Qed.

(** The names of a well-formed listing. *)
Lemma nondirs_of_wf es :
  forallb dirent_wf es = true →
  Forall (fun name => startswith name (txt "/") = false) (nondirs_of es).
Proof.
  unfold nondirs_of. induction es as [|e es IH]; simpl; [constructor|].
  intros [He Hes]%andb_true_iff. destruct e as [name|name islink listing].
  - rewrite filter_cons_True by done. simpl. constructor; [|by apply IH].
    simpl in He. by apply negb_true_iff.
  - rewrite filter_cons_False by (simpl; by intros []). by apply IH.
Qed.

(** Everything the walk yields below [top] lies under [top]. *)
Lemma walk_entry_under : ∀ e top,
  dirent_wf e = true →
  Forall (fun y : str * list str * list str =>
            top `prefix_of` y.1.1 ∧
            Forall (fun name => startswith name (txt "/") = false) y.2)
         (walk_entry top e).
Proof.
  fix IH 1. intros [name|name islink [es|]] top Hwf; simpl; [constructor| |].
  - simpl in Hwf. apply andb_true_iff in Hwf as [Hname Hes].
    apply negb_true_iff in Hname.
    destruct islink; [constructor|].
    constructor; [split; [by apply path_join_prefix | by apply nondirs_of_wf]|].
    induction es as [|e es IHes]; simpl; [constructor|].
    simpl in Hes. apply andb_true_iff in Hes as [He Hes].
    apply Forall_app. split; [|by apply IHes].
    eapply Forall_impl; [apply (IH e (path_join top name) He)|].
    intros y [Hy Hn]. split; [|done].
    etrans; [by apply path_join_prefix | exact Hy].
  - by destruct islink; constructor.
Qed.

Lemma os_walk_under top tree :
  tree_wf tree = true →
  Forall (fun y : str * list str * list str =>
            top `prefix_of` y.1.1 ∧
            Forall (fun name => startswith name (txt "/") = false) y.2)
         (os_walk top tree).
Proof.
  destruct tree as [es|]; simpl; [|constructor]. intros Hwf.
  constructor; [split; [done | by apply nondirs_of_wf]|].
  induction es as [|e es IH]; simpl; [constructor|].
  simpl in Hwf. apply andb_true_iff in Hwf as [He Hes].
  apply Forall_app. split; [by apply walk_entry_under | by apply IH].
Qed.

(** Every path handed to [fix_frame_data_in_file] lies under the top of the
    walk and ends in [.rs]. *)
Lemma rs_paths_under top tree :
  tree_wf tree = true →
  Forall (fun q => top `prefix_of` q ∧ endswith q (txt ".rs") = true)
         (rs_paths (os_walk top tree)).
Proof.
  intros Hwf. pose proof (os_walk_under top tree Hwf) as H.
  unfold rs_paths. induction H as [|[[root dirs] names] ys [Hroot Hnames] _ IH];
    simpl; [constructor|].
  apply Forall_app. split; [|done]. simpl in *.
  apply Forall_fmap, Forall_forall. intros name [Hrs Hin]%list_elem_of_filter.
  rewrite Forall_forall in Hnames. simpl. split.
  - etrans; [exact Hroot | by apply path_join_prefix, Hnames].
  - by rewrite path_join_endswith.
Qed.

(** X10: when no entry name starts with [/], a file whose name does not lie
    under [ROOT] and that no link denotes is left as it is, whatever its
    name and content, and the run, of the file as written or with line 25
    read as [!=], ends the same way with or without it. *)
Theorem X10_unlinked_files_outside_root_untouched tree w (p : str) f :
  tree_wf tree = true →
  ¬ ROOT `prefix_of` p →
  (∀ q : str, links w !! q ≠ Some p) →
  Forall (fun run : M unit =>
            run (with_file p f w) = ((run w).1, with_file p f (run w).2))
         [script tree; main tree].
Proof.
  intros Hwf Hp Hlinks.
  apply Forall_cons_2; [|apply Forall_cons_2; [|apply Forall_nil_2]].
  - by rewrite !script_eq.
  - unfold main. rewrite !walk_loop_rs_paths. apply for_each_fix_frame.
    eapply Forall_impl; [apply (rs_paths_under ROOT tree Hwf)|].
    intros q [Hq _] Heq. unfold resolve in Heq.
    destruct (links w !! q) as [t|] eqn:Hl; simpl in Heq; subst.
    + by apply (Hlinks q).
    + by apply Hp.
Qed.

Lemma X10_unlinked_files_outside_root_untouched_witness :
  Forall (fun run : M unit =>
            run (with_file (txt "/etc/passwd.rs") (sample_file (txt "video_data:"))
                   linked_world)
            = ((run linked_world).1,
               with_file (txt "/etc/passwd.rs") (sample_file (txt "video_data:"))
                 (run linked_world).2))
         [script sample_tree; main sample_tree].
Proof.
  apply X10_unlinked_files_outside_root_untouched.
  - reflexivity.
  - apply (bool_decide_unpack _). vm_compute. reflexivity.
  - intros q Hq. unfold linked_world in Hq. cbn [links] in Hq.
    apply lookup_singleton_Some in Hq as [_ Hq]. by vm_compute in Hq.
Defined.
